(** * scuemata: lineage search, search-and-validate, and default handling

    A shallow embedding of [surface.go] of grafana/scuemata.

    - Part 1 embeds the schema chain ([Schema], [Find], [AsArray],
      [SearchAndValidate]) and the search options with their validation.
    - Part 2 embeds [ApplyDefaults] and [TrimDefaults] over an abstract
      CUE evaluator (the [cue.Value] API is an external library; it is taken
      as a record of operations).

    Go [int] values are modelled as [Z]: the code only compares and stores
    them, it never does arithmetic on them, so no wrap-around can occur.
    A Go [error] is modelled by its message; [nil] is [None]. *)

From Stdlib Require Import DecimalString.
From stdpp Require Import base numbers list strings gmap sorting.

Open Scope list_scope.
Open Scope Z_scope.

(** ** Go runtime: panics, errors, dynamic values *)

(** A Go call either returns or panics with a message. *)
Inductive outcome (A : Type) : Type :=
| Ret (a : A)
| Panic (msg : string).
Arguments Ret {A} a.
Arguments Panic {A} msg.

#[global] Instance outcome_ret : MRet outcome := fun A a => Ret a.
#[global] Instance outcome_bind : MBind outcome := fun A B k m =>
  match m with
  | Ret a => k a
  | Panic msg => Panic msg
  end.

Definition error := string.

(** [%v] of a Go int. *)
Definition fmt_int (z : Z) : string := NilZero.string_of_int (Z.to_int z).

(** The dynamic content of an [interface{}]: the code only distinguishes a
    string from everything else; other payloads are carried opaquely. *)
Inductive any : Type :=
| AnyNil
| AnyString (s : string)
| AnyBytes (b : list Byte.byte)
| AnyStruct (typename : string)
| AnyCueValue (src : string).

Record Resource := mkResource { Value : any; Name : string }.

(** ** Part 1: schemas and search *)

(** A [Schema] interface value is either nil or a node that reports its
    version, validates resources and links to its successor (the chain is a
    singly-linked list). *)
Inductive Schema : Type :=
| nilSchema
| mkSchema (version : Z * Z) (validate : Resource -> option error)
           (successor : Schema).

(** The interface methods.  Go panics when a method is called on a nil
    interface; the code below calls them on schemas it has checked to be
    non-nil, so the value chosen here for [nilSchema] is never observed
    (the one loop that could reach it, in [find_in_major], panics
    explicitly). *)
Definition Version (s : Schema) : Z * Z :=
  match s with
  | nilSchema => (0, 0)
  | mkSchema v _ _ => v
  end.

Definition Validate (s : Schema) (r : Resource) : option error :=
  match s with
  | nilSchema => None
  | mkSchema _ f _ => f r
  end.

Definition Successor (s : Schema) : Schema :=
  match s with
  | nilSchema => nilSchema
  | mkSchema _ _ n => n
  end.

Definition is_nil (s : Schema) : bool :=
  match s with nilSchema => true | _ => false end.

(** *** Search options *)

Record ssopt := mkSsopt {
  latest : bool;
  latestInMajor : Z;
  hasLatestInMajor : bool;
  latestInCurrentMajor : bool;
  exact : Z * Z
}.

(** [&ssopt{}] *)
Definition ssopt_zero : ssopt := mkSsopt false 0 false false (0, 0).

(** [type sso func(p *ssopt)]: the mutation of [*p] is the returned record. *)
Definition SearchOption := ssopt -> ssopt.

Definition pair_eqb (a b : Z * Z) : bool :=
  (a.1 =? b.1) && (a.2 =? b.2).

(** [bits.OnesCount16]: the number of set bits among the low 16.  [which]
    is a [uint16] in the source; the sums below stay under 32. *)
Definition OnesCount16 (w : Z) : Z :=
  Z.of_nat (length (filter (fun i => Z.testbit w (Z.of_nat i) = true) (seq 0 16))).

Definition ssopt_validate (p : ssopt) : option error :=
  let which := 0 in
  let which := if latest p then which + Z.shiftl 1 1 else which in
  let which := if negb (pair_eqb (exact p) (0, 0)) then which + Z.shiftl 1 2 else which in
  let step3 : Z + error :=
    if hasLatestInMajor p then
      inl (if negb (latestInMajor p =? -1) then which + Z.shiftl 1 3 else which)
    else if negb (latestInMajor p =? 0) then
      inr ("latestInMajor should never be non-zero if hasLatestInMajor is false, got "
             +:+ fmt_int (latestInMajor p))
    else inl which in
  match step3 with
  | inr e => Some e
  | inl which =>
      let which := if latestInCurrentMajor p then which + Z.shiftl 1 4 else which in
      if negb (OnesCount16 which =? 1) then Some "may only pass one SchemaSearchOption"
      else None
  end.

Definition Latest : SearchOption :=
  fun p => mkSsopt true (latestInMajor p) (hasLatestInMajor p)
             (latestInCurrentMajor p) (exact p).

Definition LatestInMajor (maj : Z) : SearchOption :=
  fun p => mkSsopt (latest p) maj (hasLatestInMajor p)
             (latestInCurrentMajor p) (exact p).

Definition LatestInCurrentMajor : SearchOption :=
  fun p => mkSsopt (latest p) (latestInMajor p) (hasLatestInMajor p)
             true (exact p).

Definition Exact (maj min : Z) : SearchOption :=
  fun p => mkSsopt (latest p) (latestInMajor p) (hasLatestInMajor p)
             (latestInCurrentMajor p) (maj, min).

(** *** Find *)

(** [for ; s.Successor() != nil; s = s.Successor() {}; return s] *)
Fixpoint find_latest (s : Schema) : Schema :=
  match s with
  | nilSchema => nilSchema
  | mkSchema _ _ n => if is_nil n then s else find_latest n
  end.

(** The loop of the [hasLatestInMajor] case; [lim] is [p.latestInMajor].
    [s] is non-nil whenever the loop is entered. *)
Fixpoint find_in_major (lim imaj : Z) (last s : Schema) : outcome Schema :=
  if imaj <=? lim then
    match s with
    | nilSchema => Panic "invalid memory address or nil pointer dereference"
    | mkSchema _ _ n =>
        if is_nil n then
          if imaj =? lim then Ret s else Ret nilSchema
        else find_in_major lim (Version n).1 s n
    end
  else Ret last.

Fixpoint find_exact (want : Z * Z) (s : Schema) : Schema :=
  match s with
  | nilSchema => nilSchema
  | mkSchema v _ n => if pair_eqb want v then s else find_exact want n
  end.

Definition Find (s : Schema) (opt : SearchOption) : outcome Schema :=
  if is_nil s then Ret nilSchema
  else
    let p := opt ssopt_zero in
    match ssopt_validate p with
    | Some err => Panic ("unreachable:" +:+ err)
    | None =>
        let in_major (lim : Z) :=
          let imaj := (Version s).1 in
          if lim <? imaj then Ret nilSchema
          else find_in_major lim imaj nilSchema s in
        if latest p then Ret (find_latest s)
        else if latestInCurrentMajor p then in_major (Version s).1
        else if hasLatestInMajor p then in_major (latestInMajor p)
        else Ret (find_exact (exact p) s)
    end.

(** Several options handed to one search: each setter runs on the same
    [ssopt], in order.  The empty list is a call that sets nothing. *)
Definition supplied (opts : list SearchOption) : SearchOption :=
  fun p => foldl (fun p opt => opt p) p opts.

(** *** AsArray and SearchAndValidate *)

(** [flat]: every schema reachable through [Successor], oldest first. *)
Fixpoint chain (s : Schema) : list Schema :=
  match s with
  | nilSchema => []
  | mkSchema _ _ n => s :: chain n
  end.

Definition index_panic (i : Z) (len : nat) : string :=
  if i <? 0 then "runtime error: index out of range [" +:+ fmt_int i +:+ "]"
  else "runtime error: index out of range [" +:+ fmt_int i +:+ "] with length "
         +:+ fmt_int (Z.of_nat len).

(** One iteration of the second loop of [AsArray]; [ret[maj]] is a checked
    slice access. *)
Definition AsArray_step (ret : list (list Schema)) (sch : Schema)
  : outcome (list (list Schema)) :=
  let maj := (Version sch).1 in
  let ret := if Z.of_nat (length ret) =? maj then ret ++ [[]] else ret in
  if maj <? 0 then Panic (index_panic maj (length ret))
  else
    match ret !! Z.to_nat maj with
    | Some row => Ret (<[Z.to_nat maj := row ++ [sch]]> ret)
    | None => Panic (index_panic maj (length ret))
    end.

Fixpoint AsArray_loop (ret : list (list Schema)) (flat : list Schema)
  : outcome (list (list Schema)) :=
  match flat with
  | [] => Ret ret
  | sch :: flat' => ret' ← AsArray_step ret sch; AsArray_loop ret' flat'
  end.

Definition AsArray (sch : Schema) : outcome (list (list Schema)) :=
  AsArray_loop [] (chain sch).

(** The inner loop of [SearchAndValidate] over one major, newest minor first
    ([rrow] is [arr[o]] read from index [len-1] down to [0]).  [log] records
    the schemas whose [Validate] has been called, in call order. *)
Fixpoint search_minor (v : any) (rrow : list Schema) (err : option error)
    (log : list Schema) : list Schema * option Schema * option error :=
  match rrow with
  | [] => (log, None, err)
  | sch :: rest =>
      match Validate sch (mkResource v "") with
      | None => (log ++ [sch], Some sch, None)
      | Some e => search_minor v rest (Some e) (log ++ [sch])
      end
  end.

(** The outer loop, newest major first. *)
Fixpoint search_major (v : any) (rarr : list (list Schema)) (err : option error)
    (log : list Schema) : list Schema * Schema * option error :=
  match rarr with
  | [] => (log, nilSchema, err)
  | row :: rest =>
      match search_minor v (reverse row) err log with
      | (log', Some sch, _) => (log', sch, None)
      | (log', None, err') => search_major v rest err' log'
      end
  end.

(** Returns the log of [Validate] calls together with the Go result pair. *)
Definition SearchAndValidate (s : Schema) (v : any)
  : outcome (list Schema * Schema * option error) :=
  arr ← AsArray s; mret (search_major v (reverse arr) None []).

(** *** Well-numbered lineages *)

(** Versions are derived from positions: a successor either stays in the
    major with a larger minor, or opens the next major. *)
Definition next_version (a b : Z * Z) : bool :=
  ((b.1 =? a.1) && (a.2 <? b.2)) || (b.1 =? a.1 + 1).

Fixpoint steps_ok (l : list Schema) : bool :=
  match l with
  | a :: (b :: _) as rest => next_version (Version a) (Version b) && steps_ok rest
  | _ => true
  end.

Definition lineage_ok (s : Schema) : bool :=
  ((Version s).1 =? 0) && steps_ok (chain s).

(** Lexicographic order on versions. *)
Definition version_lt (a b : Z * Z) : Prop :=
  a.1 < b.1 ∨ (a.1 = b.1 ∧ a.2 < b.2).

Definition version_le (a b : Z * Z) : Prop := a = b ∨ version_lt a b.

Definition newer (x y : Schema) : Prop := version_lt (Version y) (Version x).

Definition accepts (v : any) (s : Schema) : Prop :=
  Validate s (mkResource v "") = None.


(** A small lineage used in examples: 0.0, 0.1, 1.0. *)
Module Example_lineage.
Definition only (good : string) (diag : error) (r : Resource) : option error :=
  match Value r with
  | AnyString s => if String.eqb s good then None else Some diag
  | _ => Some diag
  end.
Definition always_ok (r : Resource) : option error := None.

Definition s10 : Schema := mkSchema (1, 0) (only "baz" "1.0: mismatch") nilSchema.
Definition s01 : Schema := mkSchema (0, 1) (only "baz" "0.1: mismatch") s10.
Definition s00 : Schema := mkSchema (0, 0) (only "foo" "0.0: mismatch") s01.
Definition single : Schema := mkSchema (0, 0) always_ok nilSchema.
End Example_lineage.

(** ** Part 2: defaults over the CUE evaluator *)

(** [cue.Kind]: the code compares kinds for equality only. *)
Inductive Kind : Type :=
| BottomKind | NullKind | BoolKind | IntKind | FloatKind | StringKind
| BytesKind | StructKind | ListKind | NumberKind | TopKind.

#[global] Instance Kind_eq_dec : EqDecision Kind.
Proof. solve_decision. Defined.

(** [cue.Op] as returned by [Value.Expr]. *)
Inductive Op : Type := NoOp | AndOp | OrOp | SelectorOp | CallOp | OtherOp.

#[global] Instance Op_eq_dec : EqDecision Op.
Proof. solve_decision. Defined.

(** [cue.Selector]: the two selectors the code builds paths from. *)
Inductive Selector : Type := Str (label : string) | AnyIndex.

(** The part of the [cue.Value] API that [surface.go] calls.  The evaluator
    is an external library: its operations are parameters. *)
Record Cue : Type := mkCue {
  value : Type;
  IncompleteKind : value -> Kind;
  KindOf : value -> Kind;
  Exists : value -> bool;
  Err : value -> option error;
  (** [Fields(cue.Optional(b))]: per entry [Label()], [IsOptional()], [Value()] *)
  Fields : value -> bool -> list (string * bool * value) + error;
  LookupPath : value -> Selector -> value;
  FillPath : value -> Selector -> value -> value;
  Unify : value -> value -> value;
  Eval : value -> value;
  Default : value -> value * bool;
  LenInt64 : value -> Z * option error;
  Expr : value -> Op * list value;
  List : value -> list value + error;
  NewList : list value -> value;
  Subsume : value -> value -> option error;
  ValidateConcrete : value -> option error;
  CompileString : string -> string -> value;
  Marshal : value -> string * option error
}.

(** [bytes.Replace(s, old, new, -1)] for a non-empty [old]: [skip] counts the
    bytes of a match that are still to be dropped. *)
Fixpoint replace_from (old new : string) (skip : nat) (s : string) : string :=
  match s with
  | EmptyString => EmptyString
  | String c s' =>
      match skip with
      | S k => replace_from old new k s'
      | O =>
          if String.prefix old s
          then new +:+ replace_from old new (String.length old - 1) s'
          else String c (replace_from old new O s')
      end
  end.

Definition bytes_Replace (s old new : string) : string := replace_from old new O s.

(** The dynamic type named by a failed type assertion. *)
Definition dyn_type (v : any) : string :=
  match v with
  | AnyNil => "nil"
  | AnyString _ => "string"
  | AnyBytes _ => "[]uint8"
  | AnyStruct t => t
  | AnyCueValue _ => "cue.Value"
  end.

(** [v.(string)] *)
Definition assert_string (v : any) : outcome string :=
  match v with
  | AnyString s => Ret s
  | _ => Panic ("interface conversion: interface {} is " +:+ dyn_type v +:+ ", not string")
  end.

Section Defaults.
Variable C : Cue.
Abbreviation value := (value C).

Definition field_label (f : string * bool * value) : string := f.1.1.
Definition field_optional (f : string * bool * value) : bool := f.1.2.
Definition field_value (f : string * bool * value) : value := f.2.

Definition getBranch (schemaObj concretObj : value) : value * option error :=
  let '(op, defs) := Expr C schemaObj in
  if decide (op = OrOp) then
    match
      List.find (fun def =>
        bool_decide (ValidateConcrete C (Unify C def concretObj) = None)) defs
    with
    | Some def => (def, None)
    | None => (schemaObj, Some "no branch is found for list"%string)
    end
  else (schemaObj, None).

Definition convertCUEValueToString (inputCUE : value) : string * option error :=
  match Marshal C inputCUE with
  | (re, Some err) => (re, Some err)
  | (re, None) =>
      let result := re in
      let result := bytes_Replace result "\u003c" "<" in
      let result := bytes_Replace result "\u003e" ">" in
      let result := bytes_Replace result "\u0026" "&" in
      (result, None)
  end.

(** *** ApplyDefaults *)

(** The element loop of the list case.  [rec] is the recursive call; [None]
    means that the recursion depth bound was reached. *)
Fixpoint apply_list_loop (rec : value -> value -> option (value * option error))
    (ele : value) (elems iterlist : list value) : option (list value + error) :=
  match elems with
  | [] => Some (inl iterlist)
  | x :: rest =>
      match getBranch ele x with
      | (_, Some err) => Some (inr err)
      | (ref, None) =>
          match rec x ref with
          | None => None
          | Some (re, None) => apply_list_loop rec ele rest (iterlist ++ [re])
          | Some (_, Some _) => apply_list_loop rec ele rest iterlist
          end
      end
  end.

(** One iteration of the field loop of the struct case.  The loop's
    [if err != nil { continue }] tests the error of [scue.Fields], which is
    nil once the loop runs, so it never fires. *)
Definition apply_field (rec : value -> value -> option (value * option error))
    (input : value) (f : string * bool * value) : option value :=
  let lable := field_label f in
  let lv := LookupPath C input (Str lable) in
  if Exists C lv then
    match rec lv (field_value f) with
    | None => None
    | Some (_, Some _) => Some input
    | Some (res, None) => Some (FillPath C input (Str lable) res)
    end
  else if negb (field_optional f) then
    Some (FillPath C input (Str lable) (Eval C (field_value f)))
  else Some input.

Fixpoint apply_struct_loop (rec : value -> value -> option (value * option error))
    (fields : list (string * bool * value)) (input : value) : option value :=
  match fields with
  | [] => Some input
  | f :: rest =>
      match apply_field rec input f with
      | None => None
      | Some input' => apply_struct_loop rec rest input'
      end
  end.

(** [fuel] bounds the recursion depth; [None] is returned only when it is
    exhausted. *)
Fixpoint applyDefaultHelper (fuel : nat) (input scue : value)
  : option (value * option error) :=
  match fuel with
  | O => None
  | S n =>
      match IncompleteKind C scue with
      | ListKind =>
          let ele := LookupPath C scue AnyIndex in
          if Exists C ele then
            if decide (IncompleteKind C ele = BottomKind) then
              Some (input, Some "can't get the element of list"%string)
            else
              match List C input with
              | inr _ => Some (input, Some "can't apply defaults for list"%string)
              | inl elems =>
                  match apply_list_loop (applyDefaultHelper n) ele elems [] with
                  | None => None
                  | Some (inr err) => Some (input, Some err)
                  | Some (inl iterlist) =>
                      let liInstance := NewList C iterlist in
                      match Err C liInstance with
                      | Some err => Some (input, Some err)
                      | None => Some (liInstance, None)
                      end
                  end
              end
          else Some (Unify C input scue, None)
      | StructKind =>
          match Fields C scue true with
          | inr err => Some (input, Some err)
          | inl fields =>
              match apply_struct_loop (applyDefaultHelper n) fields input with
              | None => None
              | Some input' => Some (input', None)
              end
          end
      | _ => Some (Unify C input scue, None)
      end
  end.

Definition resource_name (r : Resource) : string :=
  if String.eqb (Name r) "" then "resource" else Name r.

Definition ApplyDefaults (fuel : nat) (r : Resource) (scue : value)
  : option (outcome (Resource * option error)) :=
  let name := resource_name r in
  match assert_string (Value r) with
  | Panic msg => Some (Panic msg)
  | Ret src =>
      let rv := CompileString C src name in
      match Err C rv with
      | Some err => Some (Ret (r, Some err))
      | None =>
          match applyDefaultHelper fuel rv scue with
          | None => None
          | Some (_, Some err) => Some (Ret (r, Some err))
          | Some (rvUnified, None) =>
              match convertCUEValueToString rvUnified with
              | (_, Some err) => Some (Ret (r, Some err))
              | (re, None) => Some (Ret (mkResource (AnyString re) "", None))
              end
          end
      end
  end.
(** *** TrimDefaults *)

Definition getDefault (icue : value) : value * bool :=
  let '(d, exist') := Default C icue in
  if exist' && bool_decide (KindOf C d = ListKind) then
    match LenInt64 C d with
    | (_, Some _) => (d, false)
    | (len, None) =>
        if len <=? 0 then
          let '(op, vals) := Expr C icue in
          if decide (op = OrOp) then
            let defaultExist :=
              existsb (fun val =>
                let vallen := (LenInt64 C val).1 in
                bool_decide (KindOf C val = ListKind) && (vallen <=? 0)) vals in
            if negb defaultExist then (d, false) else (d, exist')
          else (d, false)
        else (d, exist')
    end
  else (d, exist').

Definition isCueValueEqual (inputdef input : value) : bool :=
  let '(d, exist') := getDefault inputdef in
  if exist' then
    bool_decide (Subsume C input d = None) && bool_decide (Subsume C d input = None)
  else false.

Definition trim_result : Type := value * bool * option error.

(** One iteration of the first loop of the struct case: the label is
    recorded in [keySet]; the field is copied to [rv] unless trimming it
    failed or found it equal to its default.  The loop's
    [if err != nil { return rv, false, err }] tests the error of
    [inputdef.Fields], which is nil once the loop runs. *)
Definition trim_field (rec : value -> value -> option trim_result)
    (input : value) (st : value * gset string) (f : string * bool * value)
  : option (value * gset string) :=
  let '(rv, keySet) := st in
  let lable := field_label f in
  let keySet := {[ lable ]} ∪ keySet in
  let lv := LookupPath C input (Str lable) in
  if Exists C lv then
    match rec (field_value f) lv with
    | None => None
    | Some (re, isEqual, err) =>
        if bool_decide (err = None) && negb isEqual
        then Some (FillPath C rv (Str lable) re, keySet)
        else Some (rv, keySet)
    end
  else Some (rv, keySet).

Fixpoint trim_struct_loop (rec : value -> value -> option trim_result)
    (input : value) (fields : list (string * bool * value))
    (st : value * gset string) : option (value * gset string) :=
  match fields with
  | [] => Some st
  | f :: rest =>
      match trim_field rec input st f with
      | None => None
      | Some st' => trim_struct_loop rec input rest st'
      end
  end.

(** The second loop: input fields whose label the schema does not have. *)
Definition keep_unknown (keySet : gset string) (rv : value)
    (f : string * bool * value) : value :=
  let lable := field_label f in
  if bool_decide (lable ∈ keySet) then rv
  else FillPath C rv (Str lable) (field_value f).

Fixpoint trim_list_loop (rec : value -> value -> option trim_result)
    (ele : value) (elems iterlist : list value) : option (list value) :=
  match elems with
  | [] => Some iterlist
  | x :: rest =>
      match getBranch ele x with
      | (_, Some _) => trim_list_loop rec ele rest (iterlist ++ [x])
      | (ref, None) =>
          match rec ref x with
          | None => None
          | Some (re, isEqual, err) =>
              if bool_decide (err = None) && negb isEqual
              then trim_list_loop rec ele rest (iterlist ++ [re])
              else trim_list_loop rec ele rest (iterlist ++ [x])
          end
      end
  end.

Fixpoint removeDefaultHelper (fuel : nat) (inputdef input : value)
  : option trim_result :=
  match fuel with
  | O => None
  | S n =>
      let rv := CompileString C "" "helper" in
      match Err C rv with
      | Some err => Some (input, false, Some err)
      | None =>
          match IncompleteKind C inputdef with
          | StructKind =>
              match Fields C inputdef true with
              | inr err => Some (rv, false, Some err)
              | inl fields =>
                  match trim_struct_loop (removeDefaultHelper n) input fields (rv, ∅) with
                  | None => None
                  | Some (rv, keySet) =>
                      match Fields C input false with
                      | inr err => Some (rv, false, Some err)
                      | inl ifields =>
                          Some (foldl (keep_unknown keySet) rv ifields, false, None)
                      end
                  end
              end
          | ListKind =>
              if isCueValueEqual inputdef input then Some (rv, true, None)
              else
                let ele := LookupPath C inputdef AnyIndex in
                if Exists C ele then
                  if decide (IncompleteKind C ele = BottomKind) then Some (rv, true, None)
                  else
                    match List C input with
                    | inr _ => Some (rv, true, None)
                    | inl elems =>
                        match trim_list_loop (removeDefaultHelper n) ele elems [] with
                        | None => None
                        | Some iterlist =>
                            let liInstance := NewList C iterlist in
                            Some (liInstance, false, Err C liInstance)
                        end
                    end
                else Some (input, false, None)
          | _ =>
              if isCueValueEqual inputdef input then Some (input, true, None)
              else Some (input, false, None)
          end
      end
  end.

Definition TrimDefaults (fuel : nat) (r : Resource) (scue : value)
  : option (outcome (Resource * option error)) :=
  let name := resource_name r in
  match assert_string (Value r) with
  | Panic msg => Some (Panic msg)
  | Ret src =>
      let rvInstance := CompileString C src name in
      match Err C rvInstance with
      | Some err => Some (Ret (r, Some err))
      | None =>
          match removeDefaultHelper fuel scue rvInstance with
          | None => None
          | Some (_, _, Some err) => Some (Ret (r, Some err))
          | Some (rv, _, None) =>
              match convertCUEValueToString rv with
              | (_, Some err) => Some (Ret (r, Some err))
              | (re, None) => Some (Ret (mkResource (AnyString re) "", None))
              end
          end
      end
  end.
End Defaults.

(** ** What the proofs use of the evaluator

    [FillPath] at a label leaves the other labels alone; after further
    fills its effect at the label still depends only on what is there; and a
    label missing from a struct built up from the empty struct receives the
    filled value as it is. *)
Section Laws.
Variable C : Cue.

(** [refills v0 v]: [v] is [v0] after some calls of [FillPath]. *)
Inductive refills (v0 : value C) : value C -> Prop :=
| refills_self : refills v0 v0
| refills_fill v l x : refills v0 v -> refills v0 (FillPath C v (Str l) x).

(** The values [removeDefaultHelper] accumulates in [rv]. *)
Definition filled : value C -> Prop := refills (CompileString C "" "helper").

Record FillLaws : Prop := {
  fill_other : forall v l l' x, l <> l' ->
    LookupPath C (FillPath C v (Str l) x) (Str l') = LookupPath C v (Str l');
  fill_local : forall v0 v l x, refills v0 v ->
    LookupPath C v (Str l) = LookupPath C v0 (Str l) ->
    LookupPath C (FillPath C v (Str l) x) (Str l)
      = LookupPath C (FillPath C v0 (Str l) x) (Str l);
  fill_fresh : forall rv l x, filled rv ->
    Exists C (LookupPath C rv (Str l)) = false ->
    LookupPath C (FillPath C rv (Str l) x) (Str l) = x;
  empty_lookup : forall l,
    Exists C (LookupPath C (CompileString C "" "helper") (Str l)) = false;
  empty_ok : Err C (CompileString C "" "helper") = None
}.
End Laws.

(** ** An evaluator for a fragment of CUE

    A concrete [Cue] instance used to run the embedding on examples: integer
    and string literals, the basic types [int] and [string], structs with
    optional fields, closed lists, open lists [[...T]] and disjunctions with
    default marks.  Unification is that of comparable values: when neither
    operand is an instance of the other the result is bottom. *)
Module ToyCue.

#[local] Unset Elimination Schemes.
Inductive tv : Type :=
| TAbsent
| TBottom (msg : string)
| TInt (n : Z)
| TString (s : string)
| TIntType
| TStringType
| TStruct (fields : list (string * bool * tv))
| TList (elems : list tv)
| TListOf (elem : tv)
| TOr (alts : list (bool * tv)).
#[local] Set Elimination Schemes.

Definition kind_of_concrete (v : tv) : Kind :=
  match v with
  | TInt _ => IntKind
  | TString _ => StringKind
  | TStruct _ => StructKind
  | TList _ => ListKind
  | _ => BottomKind
  end.

Fixpoint incomplete_kind (v : tv) : Kind :=
  match v with
  | TAbsent | TBottom _ => BottomKind
  | TInt _ | TIntType => IntKind
  | TString _ | TStringType => StringKind
  | TStruct _ => StructKind
  | TList _ | TListOf _ => ListKind
  | TOr alts =>
      match alts with
      | [] => BottomKind
      | (_, a) :: rest =>
          let k := incomplete_kind a in
          if forallb (fun b => bool_decide (incomplete_kind b.2 = k)) rest
          then k else TopKind
      end
  end.

Definition exists_ (v : tv) : bool :=
  match v with TAbsent => false | _ => true end.

Definition err (v : tv) : option error :=
  match v with
  | TBottom m => Some m
  | TAbsent => Some "field not found"%string
  | _ => None
  end.

Definition fields (v : tv) (optional : bool) : list (string * bool * tv) + error :=
  match v with
  | TStruct fs => inl (List.filter (fun f => optional || negb f.1.2) fs)
  | _ => inr "cannot use value as struct"%string
  end.

Fixpoint lookup_field (l : string) (fs : list (string * bool * tv)) : tv :=
  match fs with
  | [] => TAbsent
  | (l', opt, x) :: rest =>
      if String.eqb l l' then (if opt then TAbsent else x) else lookup_field l rest
  end.

Definition lookup_path (v : tv) (sel : Selector) : tv :=
  match v, sel with
  | TStruct fs, Str l => lookup_field l fs
  | TListOf e, AnyIndex => e
  | _, _ => TAbsent
  end.

(** [instance_of a b]: every value described by [b] is described by [a]. *)
Fixpoint instance_of (a b : tv) {struct a} : bool :=
  match a with
  | TAbsent | TBottom _ => false
  | TInt n => match b with TInt m => n =? m | _ => false end
  | TString s => match b with TString t => String.eqb s t | _ => false end
  | TIntType => match b with TInt _ | TIntType => true | _ => false end
  | TStringType => match b with TString _ | TStringType => true | _ => false end
  | TStruct fs =>
      match b with
      | TStruct gs =>
          (fix all_fields (fs : list (string * bool * tv)) : bool :=
             match fs with
             | [] => true
             | (l, opt, x) :: rest =>
                 (match lookup_field l gs with
                  | TAbsent => opt
                  | y => instance_of x y
                  end) && all_fields rest
             end) fs
      | _ => false
      end
  | TList xs =>
      match b with
      | TList ys =>
          (fix pointwise (xs : list tv) (ys : list tv) : bool :=
             match xs, ys with
             | [], [] => true
             | x :: xs', y :: ys' => instance_of x y && pointwise xs' ys'
             | _, _ => false
             end) xs ys
      | _ => false
      end
  | TListOf e =>
      match b with
      | TList ys => forallb (instance_of e) ys
      | TListOf e' => instance_of e e'
      | _ => false
      end
  | TOr alts =>
      (fix any_alt (alts : list (bool * tv)) : bool :=
         match alts with
         | [] => false
         | (_, x) :: rest => instance_of x b || any_alt rest
         end) alts
  end.

Definition subsume (a b : tv) : option error :=
  if instance_of a b then None else Some "value not an instance"%string.

Definition unify (a b : tv) : tv :=
  if instance_of b a then a
  else if instance_of a b then b
  else TBottom "conflicting values".

Fixpoint fill_field (l : string) (x : tv) (fs : list (string * bool * tv))
  : list (string * bool * tv) :=
  match fs with
  | [] => [(l, false, x)]
  | (l', opt, y) :: rest =>
      if String.eqb l l'
      then (l', false, if opt || negb (exists_ y) then x else unify y x) :: rest
      else (l', opt, y) :: fill_field l x rest
  end.

Definition fill_path (v : tv) (sel : Selector) (x : tv) : tv :=
  match v, sel with
  | TStruct fs, Str l => TStruct (fill_field l x fs)
  | _, _ => TBottom "cannot fill a value that is not a struct"
  end.

Definition marked (alts : list (bool * tv)) : list tv :=
  (List.filter (fun a : bool * tv => a.1) alts).*2.

Definition default (v : tv) : tv * bool :=
  match v with
  | TOr alts => match marked alts with [d] => (d, true) | _ => (v, false) end
  | TListOf _ => (TList [], true)
  | TList xs => (TList xs, true)
  | _ => (v, false)
  end.

(** [Eval] resolves references, of which the fragment has none; a
    disjunction stays a disjunction. *)
Definition eval (v : tv) : tv := v.

Definition len_int64 (v : tv) : Z * option error :=
  match v with
  | TList xs => (Z.of_nat (length xs), None)
  | TListOf _ => (0, Some "non-concrete value >=0"%string)
  | _ => (0, Some "len not supported for this type"%string)
  end.

(** [Expr] of a disjunction leaves out a marked default that another,
    unmarked member subsumes, and reports a disjunction only when more than
    one member remains. *)
Definition expr (v : tv) : Op * list tv :=
  match v with
  | TOr alts =>
      let subsumed (a : bool * tv) :=
        a.1 && existsb (fun n : bool * tv => negb n.1 && instance_of n.2 a.2) alts in
      let kept := List.filter (fun a => negb (subsumed a)) alts in
      if (1 <? length kept)%nat then (OrOp, kept.*2) else (NoOp, kept.*2)
  | _ => (NoOp, [v])
  end.

Definition list_ (v : tv) : list tv + error :=
  match v with
  | TList xs => inl xs
  | TListOf _ => inl []
  | _ => inr "cannot use value as list"%string
  end.

Fixpoint concrete (v : tv) : bool :=
  match v with
  | TInt _ | TString _ => true
  | TStruct fs =>
      (fix all_fields (fs : list (string * bool * tv)) : bool :=
         match fs with
         | [] => true
         | (_, opt, x) :: rest => (opt || concrete x) && all_fields rest
         end) fs
  | TList xs => forallb concrete xs
  | _ => false
  end.

Definition validate_concrete (v : tv) : option error :=
  if concrete v then None else Some "incomplete value"%string.

Definition dq : string :=
  String (Ascii.Ascii false true false false false true false false) EmptyString.

Definition join (parts : list string) : string :=
  match parts with
  | [] => EmptyString
  | p :: rest => foldl (fun acc q => acc +:+ "," +:+ q) p rest
  end.

(** JSON output; [None] for a value that is not concrete after defaults
    are resolved. *)
Fixpoint json (v : tv) : option string :=
  match v with
  | TInt n => Some (fmt_int n)
  | TString s => Some (dq +:+ s +:+ dq)
  | TStruct fs =>
      match
        (fix all_fields (fs : list (string * bool * tv)) : option (list string) :=
           match fs with
           | [] => Some []
           | (l, opt, x) :: rest =>
               if opt then all_fields rest
               else
                 match json x, all_fields rest with
                 | Some j, Some js => Some ((dq +:+ l +:+ dq +:+ ":" +:+ j) :: js)
                 | _, _ => None
                 end
           end) fs
      with
      | Some js => Some ("{" +:+ join js +:+ "}")
      | None => None
      end
  | TList xs =>
      match
        (fix all_elems (xs : list tv) : option (list string) :=
           match xs with
           | [] => Some []
           | x :: rest =>
               match json x, all_elems rest with
               | Some j, Some js => Some (j :: js)
               | _, _ => None
               end
           end) xs
      with
      | Some js => Some ("[" +:+ join js +:+ "]")
      | None => None
      end
  | TListOf _ => Some "[]"%string
  | TOr alts =>
      (fix first_marked (alts : list (bool * tv)) : option string :=
         match alts with
         | [] => None
         | (m, x) :: rest => if m then json x else first_marked rest
         end) alts
  | _ => None
  end.

Definition marshal (v : tv) : string * option error :=
  match json v with
  | Some s => (s, None)
  | None => (EmptyString, Some "cue: marshal error: incomplete value"%string)
  end.

(** [parse] stands for the CUE parser on non-empty sources; the empty
    source is the empty struct. *)
Definition compile (parse : string -> tv) (src name : string) : tv :=
  if String.eqb src "" then TStruct [] else parse src.

Definition cue (parse : string -> tv) : Cue :=
  {| value := tv;
     IncompleteKind := incomplete_kind;
     KindOf := kind_of_concrete;
     Exists := exists_;
     Err := err;
     Fields := fields;
     LookupPath := lookup_path;
     FillPath := fill_path;
     Unify := unify;
     Eval := eval;
     Default := default;
     LenInt64 := len_int64;
     Expr := expr;
     List := list_;
     NewList := TList;
     Subsume := subsume;
     ValidateConcrete := validate_concrete;
     CompileString := compile parse;
     Marshal := marshal |}.

End ToyCue.

(** Values of the fragment used in examples. *)
Module Example_values.
Import ToyCue.

(** [{a: string, b: int | *42, c?: int}] *)
Definition schemaA : tv :=
  TStruct [("a"%string, false, TStringType);
           ("b"%string, false, TOr [(false, TIntType); (true, TInt 42)]);
           ("c"%string, true, TIntType)].

(** [{a: "hi"}] *)
Definition inputA : tv := TStruct [("a"%string, false, TString "hi")].

(** [{a: "hi", b: 42, z: 1}] *)
Definition inputB : tv :=
  TStruct [("a"%string, false, TString "hi"); ("b"%string, false, TInt 42);
           ("z"%string, false, TInt 1)].

(** [{a: {b: int}}] and [{a: 5}] *)
Definition schemaN : tv :=
  TStruct [("a"%string, false, TStruct [("b"%string, false, TIntType)])].
Definition inputN : tv := TStruct [("a"%string, false, TInt 5)].

(** [*[] | [int]] and [[...int]] *)
Definition listMarked : tv := TOr [(true, TList []); (false, TList [TIntType])].
Definition listOpen : tv := TListOf TIntType.

Definition res : Resource := mkResource (AnyString "src") "".

End Example_values.

(** ** Predicates and values for further properties *)

(** [majors_fit n flat]: with [n] rows so far, every schema of [flat] has
    a major that is either the next unused one or one already opened. *)
Fixpoint majors_fit (n : nat) (flat : list Schema) : bool :=
  match flat with
  | [] => true
  | sch :: rest =>
      let maj := (Version sch).1 in
      if maj =? Z.of_nat n then majors_fit (S n) rest
      else (0 <=? maj) && (maj <? Z.of_nat n) && majors_fit n rest
  end.

(** Strictly positional numbering: the chain starts at (0, 0) and every
    successor has the next minor of the same major or minor 0 of the next
    major. *)
Definition positional_next (a b : Z * Z) : bool :=
  pair_eqb b (a.1, a.2 + 1) || pair_eqb b (a.1 + 1, 0).

Fixpoint positional_steps (l : list Schema) : bool :=
  match l with
  | a :: (b :: _) as rest =>
      positional_next (Version a) (Version b) && positional_steps rest
  | _ => true
  end.

Definition positional (s : Schema) : bool :=
  pair_eqb (Version s) (0, 0) && positional_steps (chain s).
Definition rows_by_major (ret : list (list Schema)) : Prop :=
  ∀ o row x, ret !! o = Some row → x ∈ row → (Version x).1 = Z.of_nat o.

Definition indexed_by_version (ret : list (list Schema)) : Prop :=
  ∀ o row i x, ret !! o = Some row → row !! i = Some x →
               Version x = (Z.of_nat o, Z.of_nat i).

(** [no_byte c s]: the byte [c] does not occur in [s]. *)
Fixpoint no_byte (c : Ascii.ascii) (s : string) : bool :=
  match s with
  | EmptyString => true
  | String c' s' => negb (Ascii.eqb c c') && no_byte c s'
  end.

(** The byte that starts the three escapes undone after marshalling. *)
Definition backslash : Ascii.ascii := Ascii.Ascii false false true true true false true false.

(** More values of the fragment used in examples. *)
Module More_values.
Import ToyCue.

(** [[...int]] with the list [[1, 2]], and [[...(int | *42)]] with [[1]] *)
Definition intList : tv := TListOf TIntType.
Definition oneTwo : tv := TList [TInt 1; TInt 2].
Definition defaultedList : tv := TListOf (TOr [(false, TIntType); (true, TInt 42)]).
Definition one : tv := TList [TInt 1].

(** [int | *42] *)
Definition intOr42 : tv := TOr [(false, TIntType); (true, TInt 42)].

(** [{a: "hi", z: 1}] *)
Definition inputZ : tv :=
  TStruct [("a"%string, false, TString "hi"); ("z"%string, false, TInt 1)].

End More_values.

(** ** The order in which schemas are tried *)

(** [comes_after y x]: [x] is reached from [y] by one or more [Successor]
    steps. *)
Definition comes_after (y x : Schema) : Prop := x ∈ chain (Successor y).

(** Rows keep the order of the chain. *)
Definition rows_in_chain_order (ret : list (list Schema)) : Prop :=
  ∀ o row, ret !! o = Some row → StronglySorted comes_after row.

(** [tried_before x y]: [x] has the larger major, or the same major and
    comes after [y] in the chain. *)
Definition tried_before (x y : Schema) : Prop :=
  (Version y).1 < (Version x).1 ∨
  ((Version x).1 = (Version y).1 ∧ comes_after y x).

(** [k] calls of [Successor]. *)
Definition nth_successor (k : nat) (s : Schema) : Schema := Nat.iter k Successor s.

(** Chains that are not numbered by position: 0.1 followed by 0.0, and
    0.0, 1.0, 0.1 in this order. *)
Module Example_chains.
Definition back00 : Schema := mkSchema (0, 0) Example_lineage.always_ok nilSchema.
Definition back01 : Schema := mkSchema (0, 1) Example_lineage.always_ok back00.

Definition mixed01 : Schema :=
  mkSchema (0, 1) (Example_lineage.only "baz" "0.1: mismatch") nilSchema.
Definition mixed10 : Schema :=
  mkSchema (1, 0) (Example_lineage.only "foo" "1.0: mismatch") mixed01.
Definition mixed00 : Schema :=
  mkSchema (0, 0) (Example_lineage.only "baz" "0.0: mismatch") mixed10.
End Example_chains.

(** * Proofs *)

(** ** Part 1: facts about search *)

Lemma is_nil_chain s : is_nil s = true ↔ chain s = [].
Proof. destruct s; simpl; split; congruence. Qed.

Lemma chain_head s : s ≠ nilSchema → ∃ rest, chain s = s :: rest.
Proof. destruct s; [congruence | eauto]. Qed.

Lemma ssopt_validate_zero :
  ssopt_validate ssopt_zero = Some "may only pass one SchemaSearchOption"%string.
Proof. reflexivity. Qed.

Lemma ssopt_validate_LatestInMajor m :
  ssopt_validate (LatestInMajor m ssopt_zero) =
    Some (if m =? 0 then "may only pass one SchemaSearchOption"%string
          else ("latestInMajor should never be non-zero if hasLatestInMajor is false, got "
                  +:+ fmt_int m)%string).
Proof.
  unfold ssopt_validate, LatestInMajor; simpl.
  destruct (m =? 0); reflexivity.
Qed.

Lemma ssopt_validate_Exact a b :
  (a, b) ≠ (0, 0) → ssopt_validate (Exact a b ssopt_zero) = None.
Proof.
  intros Hne. unfold ssopt_validate, Exact, pair_eqb; simpl.
  destruct ((a =? 0) && (b =? 0)) eqn:E; [|reflexivity].
  apply andb_prop in E as [?%Z.eqb_eq ?%Z.eqb_eq]. congruence.
Qed.

Lemma pair_eqb_eq a b : pair_eqb a b = true ↔ a = b.
Proof.
  destruct a, b; unfold pair_eqb; simpl.
  rewrite andb_true_iff, !Z.eqb_eq. split; [intros []; congruence | inversion 1; auto].
Qed.

(** The exact search returns the first schema of the chain carrying the
    wanted version. *)
Lemma find_exact_first want t older s :
  chain t = older ++ chain s → s ≠ nilSchema → Version s = want →
  Forall (λ x, Version x ≠ want) older →
  find_exact want t = s.
Proof.
  revert t. induction older as [|o older IH]; intros t Hc Hs Hv Hold.
  - simpl in Hc. destruct s as [|v f n]; [congruence|].
    destruct t as [|v' f' n']; [discriminate|].
    assert (Hts : mkSchema v' f' n' = mkSchema v f n) by (simpl in Hc; congruence).
    rewrite Hts. simpl in *. subst want.
    destruct (pair_eqb v v) eqn:E; [done|].
    exfalso. assert (pair_eqb v v = true) by by apply pair_eqb_eq. congruence.
  - destruct t as [|v' f' n']; [discriminate|].
    assert (Ho : o = mkSchema v' f' n') by (simpl in Hc; congruence).
    assert (Hn : chain n' = older ++ chain s) by (simpl in Hc; congruence).
    apply Forall_cons in Hold as [Hov Hold]. subst o. simpl in *.
    destruct (pair_eqb want v') eqn:E.
    + apply pair_eqb_eq in E. congruence.
    + by apply IH.
Qed.

Lemma Find_Exact_found t older s :
  chain t = older ++ chain s → s ≠ nilSchema → Version s ≠ (0, 0) →
  Forall (λ x, Version x ≠ Version s) older →
  Find t (Exact (Version s).1 (Version s).2) = Ret s.
Proof.
  intros Hc Hs Hv Hold. unfold Find.
  destruct (is_nil t) eqn:Ht.
  - apply is_nil_chain in Ht. rewrite Ht in Hc.
    destruct older; [|discriminate]. simpl in Hc. destruct s; [congruence | discriminate].
  - rewrite ssopt_validate_Exact by (by destruct (Version s)).
    unfold Exact, ssopt_zero; cbn [latest latestInCurrentMajor hasLatestInMajor exact].
    replace ((Version s).1, (Version s).2) with (Version s) by (by destruct (Version s)).
    f_equal. by apply (find_exact_first _ t older s).
Qed.

(** *** AsArray on well-numbered lineages *)

Lemma next_version_spec a b :
  next_version a b = true ↔ (b.1 = a.1 ∧ a.2 < b.2) ∨ b.1 = a.1 + 1.
Proof.
  unfold next_version. rewrite orb_true_iff, andb_true_iff, !Z.eqb_eq, Z.ltb_lt. tauto.
Qed.

Lemma lookup_snoc {A} (l : list A) (y : A) : (l ++ [y]) !! length l = Some y.
Proof. by rewrite lookup_app_r, Nat.sub_diag by lia. Qed.

Lemma insert_snoc {A} (l : list A) (y x : A) : <[length l := x]> (l ++ [y]) = l ++ [x].
Proof.
  replace (<[length l := x]> (l ++ [y])) with (<[(length l + 0)%nat := x]> (l ++ [y]))
    by (f_equal; lia).
  by rewrite insert_app_r.
Qed.

Lemma AsArray_loop_ok flat : ∀ rows row prev,
  steps_ok (prev :: flat) = true →
  Z.of_nat (length (rows ++ [row])) = (Version prev).1 + 1 →
  ∃ arr, AsArray_loop (rows ++ [row]) flat = Ret arr ∧
         concat arr = concat (rows ++ [row]) ++ flat.
Proof.
  induction flat as [|sch flat IH]; intros rows row prev Hsteps Hlen.
  - exists (rows ++ [row]). by rewrite app_nil_r.
  - cbn [steps_ok] in Hsteps. apply andb_prop in Hsteps as [Hnext Hsteps].
    apply next_version_spec in Hnext.
    rewrite length_app in Hlen. simpl in Hlen.
    cbn [AsArray_loop]. unfold AsArray_step.
    destruct Hnext as [[Hmaj _] | Hmaj].
    + (* same major: the schema joins the last row *)
      destruct (Z.of_nat (length (rows ++ [row])) =? (Version sch).1) eqn:E.
      { apply Z.eqb_eq in E. rewrite length_app in E. simpl in E. lia. }
      destruct ((Version sch).1 <? 0) eqn:E0; [apply Z.ltb_lt in E0; lia|].
      assert (Hidx : Z.to_nat (Version sch).1 = length rows) by lia.
      rewrite Hidx, lookup_snoc, insert_snoc.
      destruct (IH rows (row ++ [sch]) sch Hsteps) as [arr [Harr Hcat]].
      { rewrite length_app. simpl. lia. }
      exists arr. split; [exact Harr|].
      rewrite Hcat, !concat_app. simpl. rewrite !app_nil_r, <- !app_assoc. done.
    + (* next major: a new row is opened *)
      destruct (Z.of_nat (length (rows ++ [row])) =? (Version sch).1) eqn:E.
      2:{ apply Z.eqb_neq in E. rewrite length_app in E. simpl in E. lia. }
      destruct ((Version sch).1 <? 0) eqn:E0; [apply Z.ltb_lt in E0; lia|].
      assert (Hidx : Z.to_nat (Version sch).1 = length (rows ++ [row])).
      { rewrite length_app. simpl. lia. }
      rewrite Hidx, lookup_snoc, insert_snoc.
      destruct (IH (rows ++ [row]) [sch] sch Hsteps) as [arr [Harr Hcat]].
      { rewrite !length_app. simpl. lia. }
      exists arr. split; [exact Harr|].
      rewrite Hcat, !concat_app. simpl. rewrite !app_nil_r, <- !app_assoc. done.
Qed.

Lemma AsArray_ok s :
  lineage_ok s = true → ∃ arr, AsArray s = Ret arr ∧ concat arr = chain s.
Proof.
  unfold lineage_ok, AsArray. intros [Hz Hsteps]%andb_prop. apply Z.eqb_eq in Hz.
  destruct s as [|v f n]; [by exists []|].
  cbn [chain AsArray_loop]. unfold AsArray_step. simpl in Hz. simpl length.
  cbn [Version fst]. rewrite Hz. simpl.
  destruct (AsArray_loop_ok (chain n) [] [mkSchema v f n] (mkSchema v f n)) as [arr [Ha Hc]].
  - exact Hsteps.
  - simpl. lia.
  - exists arr. split; [exact Ha|]. rewrite Hc. reflexivity.
Qed.

(** *** The search loops *)

Lemma search_minor_app v a : ∀ b err log,
  search_minor v (a ++ b) err log =
    match search_minor v a err log with
    | (l, Some s, e) => (l, Some s, e)
    | (l, None, e) => search_minor v b e l
    end.
Proof.
  induction a as [|x a IH]; intros b err log; [done|].
  simpl. destruct (Validate x _); [apply IH | done].
Qed.

(** Both loops together scan the rows in order. *)
Lemma search_major_flat v rarr : ∀ err log,
  search_major v rarr err log =
    match search_minor v (concat (reverse <$> rarr)) err log with
    | (l, Some s, _) => (l, s, None)
    | (l, None, e) => (l, nilSchema, e)
    end.
Proof.
  induction rarr as [|row rarr IH]; intros err log; [done|].
  cbn [search_major fmap list_fmap concat]. rewrite search_minor_app.
  destruct (search_minor v (reverse row) err log) as [[l [s|]] e]; [done | apply IH].
Qed.

Lemma reverse_concat {A} (ls : list (list A)) :
  concat (reverse <$> reverse ls) = reverse (concat ls).
Proof.
  induction ls as [|l ls IH]; [done|].
  rewrite reverse_cons, fmap_app, concat_app. simpl.
  rewrite IH, app_nil_r, reverse_app. done.
Qed.

Lemma search_minor_all_reject v l : ∀ err log,
  Forall (λ x, ¬ accepts v x) l →
  ∃ e, search_minor v l err log = (log ++ l, None, e) ∧
       e = match last l with
           | Some x => Validate x (mkResource v "")
           | None => err
           end.
Proof.
  induction l as [|x l IH]; intros err log Hall.
  - exists err. by rewrite app_nil_r.
  - apply Forall_cons in Hall as [Hx Hall]. simpl.
    unfold accepts in Hx. destruct (Validate x _) as [d|] eqn:E; [|done].
    destruct (IH (Some d) (log ++ [x]) Hall) as [e [He Hlast]].
    exists e. rewrite He, <- app_assoc. split; [done|].
    rewrite Hlast. destruct l as [|y l]; [simpl; congruence|].
    rewrite last_cons_cons. destruct (last (y :: l)) eqn:El; [done|].
    by apply last_None in El.
Qed.

Lemma search_minor_first_accept v rejected r older err log :
  Forall (λ x, ¬ accepts v x) rejected → accepts v r →
  search_minor v (rejected ++ r :: older) err log = (log ++ rejected ++ [r], Some r, None).
Proof.
  intros Hrej Hr. rewrite search_minor_app.
  destruct (search_minor_all_reject v rejected err log Hrej) as [e [-> _]].
  simpl. unfold accepts in Hr. rewrite Hr. by rewrite <- app_assoc.
Qed.

(** Every list splits at its first accepting schema, if it has one. *)
Lemma split_first_accept v (l : list Schema) :
  (Forall (λ x, ¬ accepts v x) l) ∨
  (∃ rejected r older, l = rejected ++ r :: older ∧
     Forall (λ x, ¬ accepts v x) rejected ∧ accepts v r).
Proof.
  induction l as [|x l IH]; [by left|].
  destruct (Validate x (mkResource v "")) as [d|] eqn:E.
  - destruct IH as [Hall | (rej & r & older & -> & Hrej & Hr)].
    + left. constructor; [unfold accepts; rewrite E; discriminate | done].
    + right. exists (x :: rej), r, older. split; [done|].
      split; [constructor; [unfold accepts; rewrite E; discriminate | done] | done].
  - right. exists [], x, l. split; [done|]. split; [constructor | exact E].
Qed.

(** *** Version order along the chain *)

#[local] Instance version_lt_trans : Transitive version_lt.
Proof. intros a b c; unfold version_lt; lia. Qed.

Lemma next_version_lt a b : next_version a b = true → version_lt a b.
Proof. rewrite next_version_spec. unfold version_lt. lia. Qed.

Lemma steps_ok_sorted l :
  steps_ok l = true → StronglySorted (λ x y, version_lt (Version x) (Version y)) l.
Proof.
  intros H. apply Sorted_StronglySorted.
  { intros a b c; apply version_lt_trans. }
  induction l as [|a [|b l] IH]; [constructor | repeat constructor |].
  cbn [steps_ok] in H. apply andb_prop in H as [Hab Hrest].
  constructor; [by apply IH | constructor].
  exact (next_version_lt _ _ Hab).
Qed.

Lemma StronglySorted_reverse {A} (R : relation A) l :
  StronglySorted R l → StronglySorted (flip R) (reverse l).
Proof.
  induction 1 as [|x l Hs IH Hx]; [constructor|].
  rewrite reverse_cons. apply StronglySorted_app_2.
  - intros y z Hy ->%list_elem_of_singleton. unfold flip.
    apply (proj1 (list.Forall_forall _ _) Hx). by apply elem_of_reverse.
  - exact IH.
  - repeat constructor.
Qed.

Lemma chain_newest_first s :
  lineage_ok s = true → StronglySorted newer (reverse (chain s)).
Proof.
  intros [_ H]%andb_prop. apply steps_ok_sorted in H.
  by apply StronglySorted_reverse in H.
Qed.

(** *** Claims about Find *)

(** C1: searching for the exact version (0, 0) never returns the schema: the
    option leaves [ssopt] at its zero value, validation counts no criterion
    and [Find] panics, on every non-nil start schema. *)
Theorem Find_Exact_origin_panics (v : Z * Z) (f : Resource → option error) (n : Schema) :
  Find (mkSchema v f n) (Exact 0 0) =
    Panic "unreachable:may only pass one SchemaSearchOption".
Proof. reflexivity. Qed.

(** C2: [LatestInMajor] never sets [hasLatestInMajor], so validation rejects
    the option and [Find] panics for every major and every non-nil schema. *)
Theorem Find_LatestInMajor_panics (v : Z * Z) (f : Resource → option error)
    (n : Schema) (m : Z) :
  Find (mkSchema v f n) (LatestInMajor m) =
    Panic (if m =? 0 then "unreachable:may only pass one SchemaSearchOption"%string
           else ("unreachable:latestInMajor should never be non-zero if hasLatestInMajor is false, got "
                   +:+ fmt_int m)%string).
Proof.
  unfold Find. cbn [is_nil]. rewrite ssopt_validate_LatestInMajor.
  by destruct (m =? 0).
Qed.

(** C5 (as stated) fails: a nil schema is answered with a normal nil
    return, not a panic. *)
Lemma Find_nil_schema_no_panic : ¬ ∃ msg, Find nilSchema Latest = Panic msg.
Proof. intros [msg H]. discriminate H. Qed.

(** C5 (amended): a nil schema gives a normal nil return whatever the option;
    on a non-nil schema a call that sets no criterion panics, and so does a
    call that sets two or three different criteria among [Latest],
    [LatestInCurrentMajor] and [Exact a b] with [(a, b) ≠ (0, 0)]. *)
Theorem Find_misuse (s : Schema) (a b : Z) :
  s ≠ nilSchema → (a, b) ≠ (0, 0) →
  let msg := "unreachable:may only pass one SchemaSearchOption"%string in
  let known := [Latest; LatestInCurrentMajor; Exact a b] in
  (∀ opt, Find nilSchema opt = Ret nilSchema) ∧
  Find s (supplied []) = Panic msg ∧
  (∀ o1 o2, o1 ∈ known → o2 ∈ known → o1 ≠ o2 →
     Find s (supplied [o1; o2]) = Panic msg) ∧
  Find s (supplied known) = Panic msg.
Proof.
  intros Hs Hab msg known. destruct s as [|v f n]; [congruence|].
  assert (Hz : pair_eqb (a, b) (0, 0) = false).
  { destruct (pair_eqb (a, b) (0, 0)) eqn:E; [|done]. by apply pair_eqb_eq in E. }
  split; [done|]. split; [done|]. split.
  - intros o1 o2 H1 H2 Hne. unfold known in *.
    repeat (apply elem_of_cons in H1 as [-> | H1]);
      try (by apply elem_of_nil in H1);
      repeat (apply elem_of_cons in H2 as [-> | H2]);
      try (by apply elem_of_nil in H2);
      try congruence;
      unfold Find, supplied, ssopt_validate; simpl; rewrite ?Hz; reflexivity.
  - unfold Find, supplied, ssopt_validate, known; simpl. rewrite Hz. reflexivity.
Qed.

Lemma Find_misuse_witness :
  Find Example_lineage.s00 (supplied [Latest; Exact 1 0]) =
    Panic "unreachable:may only pass one SchemaSearchOption".
Proof.
  refine (proj1 (proj2 (proj2 (Find_misuse Example_lineage.s00 1 0 _ _))) Latest (Exact 1 0) _ _ _).
  - discriminate.
  - discriminate.
  - apply elem_of_cons; left; reflexivity.
  - apply elem_of_cons; right; apply elem_of_cons; right; apply elem_of_cons; left; reflexivity.
  - intros H. apply (f_equal (fun o => latest (o ssopt_zero))) in H. discriminate H.
Defined.

(** *** Claims about AsArray and SearchAndValidate *)

(** C10: a start schema whose major version exceeds 0 makes [ret[maj]] an
    out-of-range access on the empty [ret]: [AsArray] panics, and so does
    [SearchAndValidate]. *)
Theorem AsArray_positive_major_panics (s : Schema) (v : any) :
  s ≠ nilSchema → 0 < (Version s).1 →
  AsArray s = Panic (index_panic (Version s).1 0) ∧
  SearchAndValidate s v = Panic (index_panic (Version s).1 0).
Proof.
  intros Hs Hmaj. destruct s as [|ver f n]; [congruence|].
  assert (H : AsArray (mkSchema ver f n) = Panic (index_panic ver.1 0)).
  { unfold AsArray. cbn [chain AsArray_loop]. unfold AsArray_step.
    cbn [Version length] in *.
    destruct (Z.of_nat 0 =? ver.1) eqn:E; [apply Z.eqb_eq in E; lia|].
    destruct (ver.1 <? 0) eqn:E0; [apply Z.ltb_lt in E0; lia|].
    reflexivity. }
  split; [exact H|]. unfold SearchAndValidate. cbn [Version]. by rewrite H.
Qed.

Lemma AsArray_positive_major_panics_witness :
  AsArray Example_lineage.s10 = Panic "runtime error: index out of range [1] with length 0"
  ∧ SearchAndValidate Example_lineage.s10 (AnyString "baz") =
      Panic "runtime error: index out of range [1] with length 0".
Proof.
  apply (AsArray_positive_major_panics Example_lineage.s10 (AnyString "baz")).
  - discriminate.
  - reflexivity.
Defined.

(** A gap in the major versions of the chain is an out-of-range access as
    well. *)
Lemma AsArray_major_gap_panics (v : Z * Z) (f : Resource → option error) (n : Schema) :
  v.1 = 0 → n ≠ nilSchema → 1 < (Version n).1 →
  AsArray (mkSchema v f n) = Panic (index_panic (Version n).1 1).
Proof.
  intros Hv Hn Hgap. destruct n as [|v' f' n']; [congruence|].
  set (s := mkSchema v f (mkSchema v' f' n')).
  assert (H0 : AsArray_step [] s = Ret [[s]]).
  { unfold AsArray_step. cbn [Version s]. rewrite Hv. reflexivity. }
  assert (H1 : AsArray_step [[s]] (mkSchema v' f' n') = Panic (index_panic v'.1 1)).
  { unfold AsArray_step. cbn [Version length] in *.
    destruct (Z.of_nat 1 =? v'.1) eqn:E; [apply Z.eqb_eq in E; lia|].
    destruct (v'.1 <? 0) eqn:E0; [apply Z.ltb_lt in E0; lia|].
    rewrite lookup_ge_None_2; [done | simpl; lia]. }
  unfold AsArray. change (chain s) with (s :: mkSchema v' f' n' :: chain n').
  cbn [AsArray_loop]. rewrite H0. cbn [mbind outcome_bind]. by rewrite H1.
Qed.

(** Scenario D: both 0.1 and 1.0 accept the instance; 1.0 is returned after
    a single [Validate] call. *)
Example SearchAndValidate_scenario :
  SearchAndValidate Example_lineage.s00 (AnyString "baz") =
    Ret ([Example_lineage.s10], Example_lineage.s10, None).
Proof. reflexivity. Qed.




(** *** More fuel never changes a result *)
Section Fuel.
Variable C : Cue.

Lemma apply_list_loop_mono rec rec' ele elems :
  (∀ x y r, rec x y = Some r → rec' x y = Some r) →
  ∀ acc r, apply_list_loop C rec ele elems acc = Some r →
           apply_list_loop C rec' ele elems acc = Some r.
Proof.
  intros Hle. induction elems as [|x elems IH]; intros acc r H; [done|].
  cbn [apply_list_loop] in *. destruct (getBranch C ele x) as [ref [e|]]; [done|].
  destruct (rec x ref) as [[re err]|] eqn:E; [|done].
  rewrite (Hle _ _ _ E). destruct err; by apply IH.
Qed.

Lemma apply_struct_loop_mono rec rec' fields :
  (∀ x y r, rec x y = Some r → rec' x y = Some r) →
  ∀ input r, apply_struct_loop C rec fields input = Some r →
             apply_struct_loop C rec' fields input = Some r.
Proof.
  intros Hle. induction fields as [|f fields IH]; intros input r H; [done|].
  cbn [apply_struct_loop] in *.
  destruct (apply_field C rec input f) as [input'|] eqn:E; [|done].
  assert (E' : apply_field C rec' input f = Some input').
  { unfold apply_field in *. destruct (Exists C _); [|done].
    destruct (rec _ _) as [[res err]|] eqn:Er; [|done]. by rewrite (Hle _ _ _ Er). }
  rewrite E'. by apply IH.
Qed.

Lemma applyDefaultHelper_mono n : ∀ input scue r,
  applyDefaultHelper C n input scue = Some r →
  applyDefaultHelper C (S n) input scue = Some r.
Proof.
  induction n as [|n IH]; intros input scue r H; [done|].
  remember (S n) as m eqn:Hm. cbn [applyDefaultHelper].
  rewrite Hm in H. cbn [applyDefaultHelper] in H. subst m.
  destruct (IncompleteKind C scue); try done.
  - destruct (Fields C scue true) as [fields|e]; [|done].
    destruct (apply_struct_loop C (applyDefaultHelper C n) fields input) as [out|] eqn:E;
      [|done].
    by rewrite (apply_struct_loop_mono _ _ _ IH _ _ E).
  - destruct (Exists C _); [|done]. destruct (decide _); [done|].
    destruct (List C input) as [elems|e]; [|done].
    destruct (apply_list_loop C (applyDefaultHelper C n) _ elems []) as [res|] eqn:E;
      [|done].
    by rewrite (apply_list_loop_mono _ _ _ _ IH _ _ E).
Qed.

Lemma trim_list_loop_mono rec rec' ele elems :
  (∀ x y r, rec x y = Some r → rec' x y = Some r) →
  ∀ acc r, trim_list_loop C rec ele elems acc = Some r →
           trim_list_loop C rec' ele elems acc = Some r.
Proof.
  intros Hle. induction elems as [|x elems IH]; intros acc r H; [done|].
  cbn [trim_list_loop] in *. destruct (getBranch C ele x) as [ref [e|]]; [by apply IH|].
  destruct (rec ref x) as [[[re isEqual] err]|] eqn:E; [|done].
  rewrite (Hle _ _ _ E). destruct (_ && _); by apply IH.
Qed.

Lemma trim_struct_loop_mono rec rec' input fields :
  (∀ x y r, rec x y = Some r → rec' x y = Some r) →
  ∀ st r, trim_struct_loop C rec input fields st = Some r →
          trim_struct_loop C rec' input fields st = Some r.
Proof.
  intros Hle. induction fields as [|f fields IH]; intros st r H; [done|].
  cbn [trim_struct_loop] in *.
  destruct (trim_field C rec input st f) as [st'|] eqn:E; [|done].
  assert (E' : trim_field C rec' input st f = Some st').
  { unfold trim_field in *. destruct st as [rv ks]. destruct (Exists C _); [|done].
    destruct (rec _ _) as [[[re isEqual] err]|] eqn:Er; [|done]. by rewrite (Hle _ _ _ Er). }
  rewrite E'. by apply IH.
Qed.

Lemma removeDefaultHelper_mono n : ∀ inputdef input r,
  removeDefaultHelper C n inputdef input = Some r →
  removeDefaultHelper C (S n) inputdef input = Some r.
Proof.
  induction n as [|n IH]; intros inputdef input r H; [done|].
  remember (S n) as m eqn:Hm. cbn [removeDefaultHelper].
  rewrite Hm in H. cbn [removeDefaultHelper] in H. subst m.
  destruct (Err C _); [done|].
  destruct (IncompleteKind C inputdef); try done.
  - destruct (Fields C inputdef true) as [fields|e]; [|done].
    destruct (trim_struct_loop C (removeDefaultHelper C n) input fields _)
      as [[rv ks]|] eqn:E; [|done].
    by rewrite (trim_struct_loop_mono _ _ _ _ IH _ _ E).
  - destruct (isCueValueEqual C inputdef input); [done|].
    destruct (Exists C _); [|done]. destruct (decide _); [done|].
    destruct (List C input) as [elems|e]; [|done].
    destruct (trim_list_loop C (removeDefaultHelper C n) _ elems []) as [res|] eqn:E;
      [|done].
    by rewrite (trim_list_loop_mono _ _ _ _ IH _ _ E).
Qed.

End Fuel.

(** ** Part 2: facts about defaults *)

Section DefaultsFacts.
Variable C : Cue.
Hypothesis laws : FillLaws C.

Abbreviation labels fs := (field_label C <$> fs).
Abbreviation at_label v f := (LookupPath C v (Str (field_label C f))).

(** *** The field loop of ApplyDefaults *)

Lemma apply_field_other rec v f out l' :
  apply_field C rec v f = Some out → l' ≠ field_label C f →
  LookupPath C out (Str l') = LookupPath C v (Str l').
Proof.
  unfold apply_field. intros H Hne.
  destruct (Exists C (at_label v f)).
  - destruct (rec _ _) as [[res [e|]]|]; simplify_eq; [done|].
    by apply (fill_other C laws).
  - destruct (negb _); simplify_eq; [|done]. by apply (fill_other C laws).
Qed.

Lemma apply_field_agree rec v v' f out' :
  refills C v' v →
  at_label v f = at_label v' f →
  apply_field C rec v' f = Some out' →
  ∃ out, apply_field C rec v f = Some out ∧ refills C v' out ∧
         at_label out f = at_label out' f.
Proof.
  unfold apply_field. intros Hre Hsame H. rewrite Hsame.
  destruct (Exists C (at_label v' f)).
  - destruct (rec _ _) as [[res [e|]]|]; simplify_eq; eexists; (split; [done|]).
    + done.
    + split; [by constructor | by apply (fill_local C laws)].
  - destruct (negb _); simplify_eq; eexists; (split; [done|]).
    + split; [by constructor | by apply (fill_local C laws)].
    + done.
Qed.

Lemma apply_struct_loop_fields rec input fields : ∀ cur,
  NoDup (labels fields) →
  refills C input cur →
  (∀ f, f ∈ fields → at_label cur f = at_label input f) →
  (∀ f, f ∈ fields → is_Some (apply_field C rec input f)) →
  ∃ out, apply_struct_loop C rec fields cur = Some out ∧
    (∀ l', l' ∉ labels fields → LookupPath C out (Str l') = LookupPath C cur (Str l')) ∧
    (∀ f, f ∈ fields →
       ∃ o, apply_field C rec input f = Some o ∧ at_label out f = at_label o f).
Proof.
  induction fields as [|f fields IH]; intros cur Hnd Hre Hsame Hsome.
  - exists cur. split; [done|]. split; [done|]. intros f Hf. by apply elem_of_nil in Hf.
  - rewrite fmap_cons in Hnd. apply NoDup_cons in Hnd as [Hf Hnd].
    destruct (Hsome f) as [o Ho]; [by left|].
    destruct (apply_field_agree rec cur input f o) as [cur' (Hcur' & Hre' & Hagree)];
      [done | apply Hsame; by left | done |].
    cbn [apply_struct_loop]. rewrite Hcur'.
    destruct (IH cur') as [out [Hout [Hkeep Hfields]]].
    + done.
    + done.
    + intros g Hg. rewrite <- (Hsame g) by by right.
      apply (apply_field_other rec cur f); [done|].
      intros Heq. apply Hf. rewrite <- Heq. by apply list_elem_of_fmap_2.
    + intros g Hg. apply Hsome. by right.
    + exists out. split; [done|]. split.
      * intros l' Hl'. rewrite fmap_cons in Hl'. apply not_elem_of_cons in Hl' as [Hne Hl'].
        rewrite Hkeep by done. by apply (apply_field_other rec cur f).
      * intros g [-> | Hg]%elem_of_cons.
        -- exists o. split; [done|]. by rewrite Hkeep, Hagree.
        -- by apply Hfields.
Qed.

(** C6: in the struct case every schema field, optional ones included, is
    handled by its label: a label the input has is recursed on with the
    (input field, schema field) pair and the result is filled in (the field
    stays as it was when the recursion fails); a missing label of a
    non-optional field is filled with the evaluated schema field; a missing
    label of an optional field stays missing.  [ApplyDefaults] runs this on
    the compiled resource and marshals the outcome. *)
Theorem ApplyDefaults_struct (n : nat) (r : Resource) (src : string)
    (scue : value C) (fields : list (string * bool * value C)) :
  let input := CompileString C src (resource_name r) in
  Value r = AnyString src →
  Err C input = None →
  IncompleteKind C scue = StructKind →
  Fields C scue true = inl fields →
  NoDup (labels fields) →
  (∀ f, f ∈ fields → Exists C (at_label input f) = true →
        is_Some (applyDefaultHelper C n (at_label input f) (field_value C f))) →
  ∃ out,
    applyDefaultHelper C (S n) input scue = Some (out, None) ∧
    ApplyDefaults C (S n) r scue =
      Some (Ret match convertCUEValueToString C out with
                | (re, None) => (mkResource (AnyString re) "", None)
                | (_, Some err) => (r, Some err)
                end) ∧
    ∀ f, f ∈ fields →
      let l := Str (field_label C f) in
      let lv := LookupPath C input l in
      if Exists C lv then
        match applyDefaultHelper C n lv (field_value C f) with
        | Some (res, None) =>
            LookupPath C out l = LookupPath C (FillPath C input l res) l
        | _ => LookupPath C out l = lv
        end
      else if field_optional C f then Exists C (LookupPath C out l) = false
      else LookupPath C out l
             = LookupPath C (FillPath C input l (Eval C (field_value C f))) l.
Proof.
  intros input Hval Herr Hkind Hfields Hnd Hrec.
  destruct (apply_struct_loop_fields (applyDefaultHelper C n) input fields input)
    as [out [Hout [_ Hpost]]]; [done | constructor | done | |].
  { intros f Hf. unfold apply_field.
    destruct (Exists C (at_label input f)) eqn:E.
    - destruct (Hrec f Hf E) as [[res [e|]] ->]; eauto.
    - destruct (negb _); eauto. }
  exists out.
  assert (Hhelper : applyDefaultHelper C (S n) input scue = Some (out, None)).
  { cbn [applyDefaultHelper]. by rewrite Hkind, Hfields, Hout. }
  split; [exact Hhelper|]. split.
  - unfold ApplyDefaults. rewrite Hval. cbn [assert_string].
    fold input. rewrite Herr, Hhelper.
    by destruct (convertCUEValueToString C out) as [re [e|]].
  - intros f Hf l lv. destruct (Hpost f Hf) as [o [Ho Hlook]].
    unfold apply_field in Ho. fold l lv in Ho, Hlook. subst l lv.
    destruct (Exists C (at_label input f)) eqn:E.
    + rewrite Hlook.
      destruct (applyDefaultHelper C n _ _) as [[res [e|]]|]; by simplify_eq.
    + destruct (field_optional C f); simpl in Ho; simplify_eq.
      * by rewrite Hlook.
      * by rewrite Hlook.
Qed.

(** *** The loops of TrimDefaults *)

Lemma trim_field_spec rec input rv ks f :
  filled C rv →
  Exists C (at_label rv f) = false →
  (Exists C (at_label input f) = true →
   is_Some (rec (field_value C f) (at_label input f))) →
  ∃ rv', trim_field C rec input (rv, ks) f = Some (rv', {[ field_label C f ]} ∪ ks) ∧
    filled C rv' ∧
    (∀ l', l' ≠ field_label C f → LookupPath C rv' (Str l') = LookupPath C rv (Str l')) ∧
    (if Exists C (at_label input f) then
       match rec (field_value C f) (at_label input f) with
       | Some (re, false, None) => at_label rv' f = re
       | _ => Exists C (at_label rv' f) = false
       end
     else Exists C (at_label rv' f) = false).
Proof.
  intros Hrv Habs Hrec. unfold trim_field.
  destruct (Exists C (at_label input f)) eqn:E.
  - destruct (Hrec eq_refl) as [[[re isEqual] err] Heq]. rewrite Heq.
    destruct isEqual, err as [e|]; cbn; try (by exists rv).
    exists (FillPath C rv (Str (field_label C f)) re).
    split; [done|]. split; [by constructor|]. split.
    + intros l' Hne. by apply (fill_other C laws).
    + by apply (fill_fresh C laws).
  - by exists rv.
Qed.

Lemma trim_struct_loop_spec rec input fields : ∀ rv ks,
  NoDup (labels fields) →
  filled C rv →
  (∀ f, f ∈ fields → Exists C (at_label rv f) = false) →
  (∀ f, f ∈ fields → Exists C (at_label input f) = true →
        is_Some (rec (field_value C f) (at_label input f))) →
  ∃ rv', trim_struct_loop C rec input fields (rv, ks)
           = Some (rv', list_to_set (labels fields) ∪ ks) ∧
    filled C rv' ∧
    (∀ l', l' ∉ labels fields → LookupPath C rv' (Str l') = LookupPath C rv (Str l')) ∧
    (∀ f, f ∈ fields →
       if Exists C (at_label input f) then
         match rec (field_value C f) (at_label input f) with
         | Some (re, false, None) => at_label rv' f = re
         | _ => Exists C (at_label rv' f) = false
         end
       else Exists C (at_label rv' f) = false).
Proof.
  induction fields as [|f fields IH]; intros rv ks Hnd Hrv Habs Hrec.
  - exists rv. cbn. split; [by rewrite (left_id_L ∅ (∪))|]. split; [done|].
    split; [done|]. intros f Hf. by apply elem_of_nil in Hf.
  - rewrite fmap_cons in Hnd. apply NoDup_cons in Hnd as [Hf Hnd].
    destruct (trim_field_spec rec input rv ks f) as [rv1 (H1 & Hfil & Hoth & Hat)];
      [done | apply Habs; by left | apply Hrec; by left |].
    assert (Hne : ∀ g, g ∈ fields → field_label C g ≠ field_label C f).
    { intros g Hg Heq. apply Hf. rewrite <- Heq. by apply list_elem_of_fmap_2. }
    destruct (IH rv1 ({[ field_label C f ]} ∪ ks)) as [rv' (Hloop & Hfil' & Hoth' & Hat')].
    + done.
    + done.
    + intros g Hg. rewrite Hoth by by apply Hne. apply Habs. by right.
    + intros g Hg. apply Hrec. by right.
    + exists rv'. cbn [trim_struct_loop]. rewrite H1, Hloop.
      split.
      { rewrite fmap_cons, list_to_set_cons.
        rewrite (assoc_L (∪) (list_to_set (labels fields))).
        by rewrite (comm_L (∪) (list_to_set (labels fields)) {[field_label C f]}). }
      split; [done|]. split.
      * intros l' Hl'. rewrite fmap_cons in Hl'. apply not_elem_of_cons in Hl' as [Hl1 Hl2].
        rewrite Hoth' by done. by apply Hoth.
      * intros g [-> | Hg]%elem_of_cons; [|by apply Hat'].
        rewrite (Hoth' (field_label C f)) by done. exact Hat.
Qed.

Lemma keep_unknown_spec ks ifields : ∀ rv,
  NoDup (labels ifields) →
  filled C rv →
  (∀ f, f ∈ ifields → field_label C f ∉ ks → Exists C (at_label rv f) = false) →
  let out := foldl (keep_unknown C ks) rv ifields in
  filled C out ∧
  (∀ l', l' ∈ ks → LookupPath C out (Str l') = LookupPath C rv (Str l')) ∧
  (∀ f, f ∈ ifields → field_label C f ∉ ks → at_label out f = field_value C f).
Proof.
  induction ifields as [|f ifields IH]; intros rv Hnd Hrv Habs out.
  - split; [done|]. split; [done|]. intros f Hf. by apply elem_of_nil in Hf.
  - rewrite fmap_cons in Hnd. apply NoDup_cons in Hnd as [Hf Hnd].
    assert (Hne : ∀ g, g ∈ ifields → field_label C g ≠ field_label C f).
    { intros g Hg Heq. apply Hf. rewrite <- Heq. by apply list_elem_of_fmap_2. }
    subst out. cbn [foldl].
    destruct (decide (field_label C f ∈ ks)) as [E|E].
    + assert (Hk : keep_unknown C ks rv f = rv)
        by (unfold keep_unknown; by rewrite bool_decide_eq_true_2).
      rewrite Hk.
      destruct (IH rv Hnd Hrv) as (Hfil & Hks & Hat).
      { intros g Hg. apply Habs. by right. }
      split; [done|]. split; [done|].
      intros g [-> | Hg]%elem_of_cons Hg'; [by destruct Hg' | by apply Hat].
    + set (rv1 := FillPath C rv (Str (field_label C f)) (field_value C f)).
      assert (Hk : keep_unknown C ks rv f = rv1)
        by (unfold keep_unknown; by rewrite bool_decide_eq_false_2).
      rewrite Hk.
      destruct (IH rv1 Hnd) as (Hfil & Hks & Hat).
      { by constructor. }
      { intros g Hg Hg'. unfold rv1. rewrite (fill_other C laws) by (intros ?; by eapply Hne).
        apply Habs; [by right | done]. }
      split; [done|]. split.
      * intros l' Hl'. rewrite Hks by done. unfold rv1.
        apply (fill_other C laws). intros Heq. apply E. by rewrite Heq.
      * intros g [-> | Hg]%elem_of_cons Hg'; [|by apply Hat].
        (* the label of [f] is not filled again by the rest of the loop *)
        clear IH Hat Hks.
        assert (Hrest : ∀ l' fs v, l' ∉ labels fs →
                  LookupPath C (foldl (keep_unknown C ks) v fs) (Str l') = LookupPath C v (Str l')).
        { intros l' fs. induction fs as [|h fs IHfs]; intros v Hl'; [done|].
          rewrite fmap_cons in Hl'. apply not_elem_of_cons in Hl' as [Hl1 Hl2].
          cbn [foldl]. rewrite IHfs by done. unfold keep_unknown.
          destruct (bool_decide _); [done|]. apply (fill_other C laws). congruence. }
        rewrite Hrest by done. unfold rv1. apply (fill_fresh C laws); [done|].
        apply Habs; [by left | done].
Qed.

(** A schema value that is neither a struct nor a list is compared with its
    default and returned unchanged. *)
Lemma removeDefaultHelper_primitive m inputdef input :
  IncompleteKind C inputdef ≠ StructKind →
  IncompleteKind C inputdef ≠ ListKind →
  removeDefaultHelper C (S m) inputdef input
    = Some (input, isCueValueEqual C inputdef input, None).
Proof.
  intros Hs Hl. cbn [removeDefaultHelper]. rewrite (empty_ok C laws).
  destruct (IncompleteKind C inputdef); try congruence;
    by destruct (isCueValueEqual C inputdef input).
Qed.

(** A list that equals the list default is reported equal. *)
Lemma removeDefaultHelper_list_equal m inputdef input :
  IncompleteKind C inputdef = ListKind →
  isCueValueEqual C inputdef input = true →
  removeDefaultHelper C (S m) inputdef input
    = Some (CompileString C "" "helper", true, None).
Proof.
  intros Hl Heq. cbn [removeDefaultHelper]. by rewrite (empty_ok C laws), Hl, Heq.
Qed.

(** C7 (amended): in the struct case a schema field that the input has is
    copied to the output exactly when trimming it succeeds and does not
    report it equal to its default.  For a field whose schema value is
    neither a struct nor a list this means: it is removed exactly when a
    default exists and value and default subsume each other; a list field
    equal to its default in that sense is removed as well.  Every input
    field whose label the schema does not have is in the output with the
    value it had. *)
Theorem TrimDefaults_struct (n : nat) (r : Resource) (src : string)
    (inputdef : value C) (fields ifields : list (string * bool * value C)) :
  let input := CompileString C src (resource_name r) in
  Value r = AnyString src →
  Err C input = None →
  IncompleteKind C inputdef = StructKind →
  Fields C inputdef true = inl fields →
  Fields C input false = inl ifields →
  NoDup (labels fields) →
  NoDup (labels ifields) →
  (∀ f, f ∈ fields → Exists C (at_label input f) = true →
        is_Some (removeDefaultHelper C n (field_value C f) (at_label input f))) →
  ∃ out,
    removeDefaultHelper C (S n) inputdef input = Some (out, false, None) ∧
    TrimDefaults C (S n) r inputdef =
      Some (Ret match convertCUEValueToString C out with
                | (re, None) => (mkResource (AnyString re) "", None)
                | (_, Some err) => (r, Some err)
                end) ∧
    (∀ f, f ∈ fields →
       let lv := at_label input f in
       let fv := field_value C f in
       if Exists C lv then
         match removeDefaultHelper C n fv lv with
         | Some (re, false, None) => at_label out f = re
         | _ => Exists C (at_label out f) = false
         end ∧
         (IncompleteKind C fv ≠ StructKind → IncompleteKind C fv ≠ ListKind →
            (Exists C (at_label out f) = false ↔ isCueValueEqual C fv lv = true)) ∧
         (IncompleteKind C fv = ListKind → isCueValueEqual C fv lv = true →
            Exists C (at_label out f) = false)
       else Exists C (at_label out f) = false) ∧
    (∀ g, g ∈ ifields → field_label C g ∉ labels fields →
       at_label out g = field_value C g).
Proof.
  intros input Hval Herr Hkind Hfields Hifields Hnd Hind Hrec.
  set (rv0 := CompileString C "" "helper").
  destruct (trim_struct_loop_spec (removeDefaultHelper C n) input fields rv0 ∅)
    as [rv' (Hloop & Hfil & Hoth & Hat)]; [done | constructor | | done |].
  { intros f _. apply (empty_lookup C laws). }
  set (ks := list_to_set (labels fields) ∪ ∅ : gset string) in *.
  assert (Hks : ∀ l, l ∈ ks ↔ l ∈ labels fields).
  { intros l. unfold ks. rewrite elem_of_union, elem_of_list_to_set.
    split; [intros [?|H]; [done | by apply elem_of_empty in H] | by left]. }
  destruct (keep_unknown_spec ks ifields rv' Hind Hfil) as (_ & Hkept & Hnew).
  { intros g Hg Hg'. rewrite Hoth by (by rewrite <- Hks). apply (empty_lookup C laws). }
  set (out := foldl (keep_unknown C ks) rv' ifields) in *.
  exists out.
  assert (Hhelper : removeDefaultHelper C (S n) inputdef input = Some (out, false, None)).
  { cbn [removeDefaultHelper]. fold rv0.
    replace (Err C rv0) with (@None error) by (symmetry; apply (empty_ok C laws)).
    by rewrite Hkind, Hfields, Hloop, Hifields. }
  split; [exact Hhelper|]. split; [|split].
  - unfold TrimDefaults. rewrite Hval. cbn [assert_string].
    fold input. rewrite Herr, Hhelper.
    by destruct (convertCUEValueToString C out) as [re [e|]].
  - intros f Hf lv fv.
    assert (Hout : at_label out f = at_label rv' f).
    { apply Hkept, Hks. by apply list_elem_of_fmap_2. }
    specialize (Hat f Hf). specialize (Hrec f Hf). fold lv fv in Hat, Hrec.
    rewrite Hout. destruct (Exists C lv) eqn:E; [|done].
    split; [exact Hat|]. split.
    + intros Hs Hl. destruct n as [|m].
      { destruct (Hrec eq_refl) as [? Hx]. discriminate Hx. }
      rewrite removeDefaultHelper_primitive in Hat by done.
      destruct (isCueValueEqual C fv lv).
      * by split.
      * rewrite Hat, E. by split.
    + intros Hl Heq. destruct n as [|m].
      { destruct (Hrec eq_refl) as [? Hx]. discriminate Hx. }
      by rewrite removeDefaultHelper_list_equal in Hat.
  - intros g Hg Hg'. apply Hnew; [done | by rewrite Hks].
Qed.

(** *** getDefault *)

(** C8: when the default reported by the evaluator is a list, [getDefault]
    reports it exactly when the evaluator says a default exists, its length
    is known, and either the list is non-empty or the value is a
    disjunction one of whose members is an empty list.  An empty default of
    a value that is not a disjunction is never reported. *)
Theorem getDefault_list (icue d : value C) (ex : bool) :
  Default C icue = (d, ex) →
  KindOf C d = ListKind →
  (getDefault C icue).1 = d ∧
  ((getDefault C icue).2 = true ↔
     ex = true ∧ ∃ len, LenInt64 C d = (len, None) ∧
       (0 < len ∨
        ((Expr C icue).1 = OrOp ∧
         ∃ val, val ∈ (Expr C icue).2 ∧ KindOf C val = ListKind ∧
                (LenInt64 C val).1 <= 0))) ∧
  (∀ len, LenInt64 C d = (len, None) → len <= 0 → (Expr C icue).1 ≠ OrOp →
     (getDefault C icue).2 = false).
Proof.
  intros Hd Hk. unfold getDefault. rewrite Hd.
  rewrite (bool_decide_eq_true_2 _ Hk).
  destruct ex; cbn [andb].
  2:{ split; [done|]. split; [|done]. split; [done | by intros [? _]]. }
  destruct (LenInt64 C d) as [len [e|]] eqn:Hlen.
  { split; [done|]. split; [|intros ? [=]]. split; [done | by intros [_ [? [[=] _]]]]. }
  destruct (len <=? 0) eqn:Hle.
  2:{ apply Z.leb_gt in Hle. split; [done|]. split.
      - split; [|done]. intros _. split; [done|]. exists len. split; [done | by left].
      - intros len' [= <-] ?. lia. }
  apply Z.leb_le in Hle.
  destruct (Expr C icue) as [op vals] eqn:Hexpr. cbn [fst snd].
  destruct (decide (op = OrOp)) as [Hop|Hop].
  2:{ split; [done|]. split; [|done]. split; [done|].
      intros [_ [len' [[= <-] [? | [? _]]]]]; [lia | done]. }
  set (p := fun val => bool_decide (KindOf C val = ListKind) && ((LenInt64 C val).1 <=? 0)).
  destruct (existsb p vals) eqn:Hex; cbn [negb fst snd].
  - split; [done|]. split; [|done]. split; [|done]. intros _. split; [done|].
    exists len. split; [done|]. right. split; [done|].
    apply existsb_exists in Hex as [val [Hin Hp]]. unfold p in Hp.
    apply andb_prop in Hp as [Hk' Hl'].
    exists val. split; [by apply list_elem_of_In|].
    split; [by apply bool_decide_eq_true in Hk' | by apply Z.leb_le].
  - split; [done|]. split; [|done]. split; [done|].
    intros [_ [len' [[= <-] [? | [_ [val (Hin & Hk' & Hl')]]]]]]; [lia|].
    assert (existsb p vals = true); [|congruence].
    apply existsb_exists. exists val. split; [by apply list_elem_of_In|].
    unfold p. rewrite (bool_decide_eq_true_2 _ Hk'). by apply Z.leb_le.
Qed.

End DefaultsFacts.

(** C9: both entry points assert that the payload is a Go string before
    anything else; every other payload makes them panic. *)
Theorem defaults_panic_on_non_string (C : Cue) (fuel : nat) (r : Resource)
    (scue : value C) :
  (∀ s, Value r ≠ AnyString s) →
  let msg := ("interface conversion: interface {} is "
                +:+ dyn_type (Value r) +:+ ", not string")%string in
  ApplyDefaults C fuel r scue = Some (Panic msg) ∧
  TrimDefaults C fuel r scue = Some (Panic msg).
Proof.
  intros Hns msg. unfold ApplyDefaults, TrimDefaults.
  destruct (Value r) as [| s | | |] eqn:E; try done.
  by destruct (Hns s).
Qed.

(** ** The CUE fragment satisfies the laws *)
Module ToyFacts.
Import ToyCue.

Lemma lookup_fill_field_ne l l' x fs :
  l ≠ l' → lookup_field l' (fill_field l x fs) = lookup_field l' fs.
Proof.
  intros Hne. induction fs as [|[[k opt] y] fs IH]; simpl.
  - destruct (String.eqb_spec l' l); [congruence | done].
  - destruct (String.eqb_spec l k) as [->|Hk]; simpl.
    + destruct (String.eqb_spec l' k); [congruence | done].
    + destruct (String.eqb_spec l' k); [done | exact IH].
Qed.

Lemma lookup_fill_field_eq l x fs :
  lookup_field l (fill_field l x fs) =
    if exists_ (lookup_field l fs) then unify (lookup_field l fs) x else x.
Proof.
  induction fs as [|[[k opt] y] fs IH]; simpl.
  - by rewrite String.eqb_refl.
  - destruct (String.eqb_spec l k) as [->|Hk]; simpl.
    + rewrite String.eqb_refl. destruct opt; simpl; [done|].
      by destruct (exists_ y).
    + destruct (String.eqb_spec l k); [congruence | exact IH].
Qed.

Definition is_struct (v : tv) : bool :=
  match v with TStruct _ => true | _ => false end.

Lemma refills_struct parse v0 v :
  refills (cue parse) v0 v → is_struct v0 = true → is_struct v = true.
Proof.
  induction 1 as [|v l x _ IH]; [done|]. intros H0. specialize (IH H0).
  by destruct v.
Qed.

Lemma refills_not_struct parse v0 v :
  refills (cue parse) v0 v → is_struct v0 = false → is_struct v = false.
Proof.
  induction 1 as [|v l x _ IH]; [done|]. intros H0. specialize (IH H0).
  by destruct v.
Qed.

Lemma toy_laws parse : FillLaws (cue parse).
Proof.
  split.
  - intros v l l' x Hne. destruct v; try done. simpl. by apply lookup_fill_field_ne.
  - intros v0 v l x Hre Hsame.
    destruct (is_struct v0) eqn:E0.
    + pose proof (refills_struct _ _ _ Hre E0) as E.
      destruct v0 as [| | | | | |fs0| | |], v as [| | | | | |fs| | |]; try done.
      simpl in *. by rewrite !lookup_fill_field_eq, Hsame.
    + pose proof (refills_not_struct _ _ _ Hre E0) as E.
      destruct v0 as [| | | | | |fs0| | |], v as [| | | | | |fs| | |]; done.
  - intros rv l x Hre Habs.
    assert (E : is_struct rv = true) by (by apply (refills_struct _ _ _ Hre)).
    destruct rv as [| | | | | |fs| | |]; try done.
    simpl in *. rewrite lookup_fill_field_eq. by rewrite Habs.
  - done.
  - done.
Qed.

End ToyFacts.

(** ** Worked examples on the CUE fragment *)
Module Examples.
Import ToyCue Example_values.

Ltac distinct_labels :=
  simpl;
  repeat (apply NoDup_cons_2;
          [ let Hin := fresh in
            intros Hin;
            repeat (apply elem_of_cons in Hin as [Hin | Hin]; [discriminate Hin|]);
            by apply elem_of_nil in Hin
          | ]);
  apply NoDup_nil_2.

Lemma ApplyDefaults_struct_witness :
  ∃ out, applyDefaultHelper (cue (λ _, inputA)) 2 inputA schemaA = Some (out, None) ∧
         LookupPath (cue (λ _, inputA)) out (Str "b")
           = TOr [(false, TIntType); (true, TInt 42)] ∧
         Exists (cue (λ _, inputA)) (LookupPath (cue (λ _, inputA)) out (Str "c")) = false.
Proof.
  destruct (ApplyDefaults_struct (cue (λ _, inputA)) (ToyFacts.toy_laws _) 1 res "src" schemaA
              [("a"%string, false, TStringType);
               ("b"%string, false, TOr [(false, TIntType); (true, TInt 42)]);
               ("c"%string, true, TIntType)])
    as [out (Hhelper & _ & Hfields)].
  - reflexivity.
  - reflexivity.
  - reflexivity.
  - reflexivity.
  - distinct_labels.
  - intros f Hf _.
    repeat (apply elem_of_cons in Hf as [-> | Hf]); try (by eexists).
    by apply elem_of_nil in Hf.
  - exists out. split; [exact Hhelper|]. split.
    + apply (Hfields ("b"%string, false, TOr [(false, TIntType); (true, TInt 42)])).
      apply elem_of_cons; right; apply elem_of_cons; by left.
    + apply (Hfields ("c"%string, true, TIntType)).
      do 2 (apply elem_of_cons; right). apply elem_of_cons; by left.
Defined.

(** Scenario A of the specification. *)
Example ApplyDefaults_scenario :
  ApplyDefaults (cue (λ _, inputA)) 2 res schemaA =
    Some (Ret (mkResource
                 (AnyString ("{" +:+ dq +:+ "a" +:+ dq +:+ ":" +:+ dq +:+ "hi" +:+ dq +:+ ","
                               +:+ dq +:+ "b" +:+ dq +:+ ":42}")) "", None)).
Proof. reflexivity. Qed.

(** C7 (as stated) fails: under the schema [{a: {b: int}}] the input
    [{a: 5}] loses its field [a], although the schema field has no default
    the value could be equal to. *)
Lemma TrimDefaults_removes_unequal_field :
  let C := cue (λ _, inputN) in
  ∃ out, removeDefaultHelper C 2 schemaN inputN = Some (out, false, None) ∧
    Exists C (LookupPath C inputN (Str "a")) = true ∧
    ¬ (Exists C (LookupPath C out (Str "a")) = false ↔
       isCueValueEqual C (TStruct [("b"%string, false, TIntType)])
                         (LookupPath C inputN (Str "a")) = true).
Proof.
  exists (TStruct []). split; [reflexivity|]. split; [reflexivity|].
  intros [H _]. specialize (H eq_refl). discriminate H.
Qed.

Lemma TrimDefaults_struct_witness :
  ∃ out, removeDefaultHelper (cue (λ _, inputB)) 2 schemaA inputB = Some (out, false, None) ∧
         Exists (cue (λ _, inputB)) (LookupPath (cue (λ _, inputB)) out (Str "b")) = false ∧
         LookupPath (cue (λ _, inputB)) out (Str "z") = TInt 1.
Proof.
  destruct (TrimDefaults_struct (cue (λ _, inputB)) (ToyFacts.toy_laws _) 1 res "src" schemaA
              [("a"%string, false, TStringType);
               ("b"%string, false, TOr [(false, TIntType); (true, TInt 42)]);
               ("c"%string, true, TIntType)]
              [("a"%string, false, TString "hi"); ("b"%string, false, TInt 42);
               ("z"%string, false, TInt 1)])
    as [out (Hhelper & _ & Hfields & Hextra)].
  - reflexivity.
  - reflexivity.
  - reflexivity.
  - reflexivity.
  - reflexivity.
  - distinct_labels.
  - distinct_labels.
  - intros f Hf _.
    repeat (apply elem_of_cons in Hf as [-> | Hf]); try (by eexists).
    by apply elem_of_nil in Hf.
  - exists out. split; [exact Hhelper|]. split.
    + assert (Hb : ("b"%string, false, TOr [(false, TIntType); (true, TInt 42)])
                     ∈ [("a"%string, false, TStringType);
                        ("b"%string, false, TOr [(false, TIntType); (true, TInt 42)]);
                        ("c"%string, true, TIntType)]).
      { apply elem_of_cons; right; apply elem_of_cons; by left. }
      destruct (Hfields _ Hb) as (_ & Hprim & _).
      apply Hprim; [discriminate | discriminate | reflexivity].
    + apply (Hextra ("z"%string, false, TInt 1)).
      * do 2 (apply elem_of_cons; right). apply elem_of_cons; by left.
      * intros Hin. simpl in Hin.
        repeat (apply elem_of_cons in Hin as [Hin | Hin]; [discriminate Hin|]).
        by apply elem_of_nil in Hin.
Defined.

Lemma getDefault_list_witness :
  (getDefault (cue (λ _, inputA)) listMarked).2 = true ∧
  (getDefault (cue (λ _, inputA)) listOpen).2 = false.
Proof.
  split.
  - apply (getDefault_list (cue (λ _, inputA)) listMarked (TList []) true eq_refl eq_refl).
    split; [reflexivity|]. exists 0. split; [reflexivity|]. right.
    split; [reflexivity|]. exists (TList []).
    split; [apply elem_of_cons; by left|]. split; [reflexivity | simpl; lia].
  - apply (proj2 (proj2 (getDefault_list (cue (λ _, inputA)) listOpen (TList []) true
                           eq_refl eq_refl)) 0); [reflexivity | lia | discriminate].
Defined.

Lemma defaults_panic_on_non_string_witness :
  ApplyDefaults (cue (λ _, inputA)) 3 (mkResource (AnyBytes []) "") schemaA
    = Some (Panic "interface conversion: interface {} is []uint8, not string") ∧
  TrimDefaults (cue (λ _, inputA)) 3 (mkResource (AnyBytes []) "") schemaA
    = Some (Panic "interface conversion: interface {} is []uint8, not string").
Proof.
  apply (defaults_panic_on_non_string (cue (λ _, inputA)) 3
           (mkResource (AnyBytes []) "") schemaA).
  intros s. discriminate.
Defined.

End Examples.

(** * Further properties *)

(** ** Further properties of the search *)

Lemma chain_non_nil s x : x ∈ chain s → x ≠ nilSchema.
Proof.
  induction s as [|v f n IH]; simpl; intros Hx.
  - by apply elem_of_nil in Hx.
  - apply elem_of_cons in Hx as [-> | Hx]; [discriminate | by apply IH].
Qed.

Lemma chain_self s : s ≠ nilSchema → s ∈ chain s.
Proof. destruct s; [congruence | intros _; apply elem_of_cons; by left]. Qed.

Lemma ssopt_validate_Latest : ssopt_validate (Latest ssopt_zero) = None.
Proof. reflexivity. Qed.

Lemma ssopt_validate_LatestInCurrentMajor :
  ssopt_validate (LatestInCurrentMajor ssopt_zero) = None.
Proof. reflexivity. Qed.

Lemma find_latest_last s :
  s ≠ nilSchema →
  last (chain s) = Some (find_latest s) ∧ Successor (find_latest s) = nilSchema.
Proof.
  induction s as [|v f n IH]; [congruence|]. intros _.
  cbn [find_latest chain]. destruct n as [|v' f' n'].
  - done.
  - cbn [is_nil]. destruct IH as [Hl Hs]; [discriminate|].
    split; [|exact Hs]. change (chain (mkSchema v' f' n')) with (mkSchema v' f' n' :: chain n') in *.
    by rewrite last_cons_cons.
Qed.

(** X1: from every non-nil schema the latest-search walks to the end of the
    chain: the result is the last reachable schema and has no successor. *)
Theorem Find_Latest_last (s : Schema) :
  s ≠ nilSchema →
  ∃ r, Find s Latest = Ret r ∧ last (chain s) = Some r ∧ Successor r = nilSchema.
Proof.
  intros Hs. exists (find_latest s). split; [|by apply find_latest_last].
  unfold Find. destruct s; [congruence|]. cbn [is_nil].
  by rewrite ssopt_validate_Latest.
Qed.

Lemma Find_Latest_last_witness :
  ∃ r, Find Example_lineage.s00 Latest = Ret r ∧
       last (chain Example_lineage.s00) = Some r ∧ Successor r = nilSchema.
Proof. apply (Find_Latest_last Example_lineage.s00). discriminate. Defined.

(** Along a well-numbered chain the majors never decrease. *)
Lemma steps_ok_majors a l x :
  steps_ok (a :: l) = true → x ∈ l → version_lt (Version a) (Version x).
Proof.
  intros H Hx. apply steps_ok_sorted in H. apply StronglySorted_inv in H as [_ H].
  by apply (proj1 (list.Forall_forall _ _) H x).
Qed.

Lemma steps_ok_tail a l : steps_ok (a :: l) = true → steps_ok l = true.
Proof.
  destruct l as [|b l]; [done|]. cbn [steps_ok]. by intros [_ ?]%andb_prop.
Qed.

Lemma find_in_major_stop lim imaj last s :
  lim < imaj → find_in_major lim imaj last s = Ret last.
Proof.
  intros H. assert (E : (imaj <=? lim) = false) by (apply Z.leb_gt; lia).
  destruct s; cbn [find_in_major]; by rewrite E.
Qed.

Lemma find_in_major_run lim s : ∀ last,
  s ≠ nilSchema → steps_ok (chain s) = true → (Version s).1 = lim →
  ∃ r, find_in_major lim lim last s = Ret r ∧ r ∈ chain s ∧ (Version r).1 = lim ∧
       ∀ x, x ∈ chain s → (Version x).1 = lim → version_le (Version x) (Version r).
Proof.
  induction s as [|v f n IH]; [congruence|]. intros last _ Hsteps Hmaj.
  cbn [Version] in Hmaj. cbn [find_in_major]. rewrite Z.leb_refl.
  destruct n as [|v' f' n'].
  - cbn [is_nil]. rewrite Z.eqb_refl. exists (mkSchema v f nilSchema).
    split; [done|]. split; [apply elem_of_cons; by left|]. split; [done|].
    intros x Hx _. simpl in Hx. apply elem_of_cons in Hx as [-> | Hx]; [by left|].
    by apply elem_of_nil in Hx.
  - cbn [is_nil]. set (n := mkSchema v' f' n') in *. set (s := mkSchema v f n).
    change (chain s) with (s :: chain n) in *.
    assert (Hnext : next_version v v' = true).
    { change (chain n) with (n :: chain n') in Hsteps. cbn [steps_ok] in Hsteps.
      by apply andb_prop in Hsteps as [? _]. }
    pose proof (steps_ok_tail _ _ Hsteps) as Htail.
    apply next_version_spec in Hnext. cbn [Version n].
    destruct Hnext as [[Hsame Hmin] | Hnew].
    + (* the successor is in the same major *)
      rewrite Hsame, Hmaj.
      destruct (IH s) as [r (Hr & Hin & Hrmaj & Hmax)]; [discriminate | done | by rewrite <- Hmaj |].
      exists r. split; [exact Hr|]. split; [apply elem_of_cons; by right|].
      split; [done|]. intros x [-> | Hx]%elem_of_cons Hxm; [|by apply Hmax].
      right. cbn [Version s].
      assert (Hn : version_le (Version n) (Version r)).
      { apply Hmax; [apply elem_of_cons; by left | cbn [Version n]; lia]. }
      assert (Hvn : version_lt v (Version n)) by (cbn [Version n]; right; lia).
      destruct Hn as [<- | Hn]; [done | by etrans].
    + (* the successor opens the next major *)
      rewrite find_in_major_stop by lia.
      exists s. split; [done|]. split; [apply elem_of_cons; by left|].
      split; [done|].
      intros x [-> | Hx]%elem_of_cons Hxm; [by left|]. exfalso.
      assert (Hge : version_le (Version n) (Version x)).
      { change (chain n) with (n :: chain n') in Hx.
        apply elem_of_cons in Hx as [-> | Hx]; [by left|].
        right. by eapply steps_ok_majors. }
      destruct Hge as [Heq | [Hge | [Hge _]]]; cbn [Version n] in *;
        [rewrite <- Heq in Hxm; simpl in Hxm; lia | lia | lia].
Qed.

(** X2: on a chain whose versions follow the positional numbering, the
    search for the latest schema of the current major returns, without
    panic, a schema of the start schema's major that is at least as new as
    every reachable schema of that major. *)
Theorem Find_LatestInCurrentMajor_newest (s : Schema) :
  s ≠ nilSchema → steps_ok (chain s) = true →
  ∃ r, Find s LatestInCurrentMajor = Ret r ∧ r ∈ chain s ∧
       (Version r).1 = (Version s).1 ∧
       ∀ x, x ∈ chain s → (Version x).1 = (Version s).1 →
            version_le (Version x) (Version r).
Proof.
  intros Hs Hsteps.
  destruct (find_in_major_run (Version s).1 s nilSchema Hs Hsteps eq_refl)
    as [r (Hr & Hin & Hmaj & Hmax)].
  exists r. split; [|done]. unfold Find. destruct s; [congruence|]. cbn [is_nil].
  rewrite ssopt_validate_LatestInCurrentMajor.
  unfold LatestInCurrentMajor, ssopt_zero; cbn [latest latestInCurrentMajor].
  by rewrite Z.ltb_irrefl.
Qed.

Lemma Find_LatestInCurrentMajor_newest_witness :
  ∃ r, Find Example_lineage.s00 LatestInCurrentMajor = Ret r ∧
       r ∈ chain Example_lineage.s00 ∧
       (Version r).1 = (Version Example_lineage.s00).1 ∧
       ∀ x, x ∈ chain Example_lineage.s00 →
            (Version x).1 = (Version Example_lineage.s00).1 →
            version_le (Version x) (Version r).
Proof.
  apply (Find_LatestInCurrentMajor_newest Example_lineage.s00); [discriminate | reflexivity].
Defined.

Lemma find_latest_in_chain s : s ≠ nilSchema → find_latest s ∈ chain s.
Proof.
  intros Hs. destruct (find_latest_last s Hs) as [Hl _].
  apply last_Some in Hl as [l' ->]. apply elem_of_app; right. apply elem_of_cons; by left.
Qed.

Lemma find_exact_in_chain want s :
  find_exact want s = nilSchema ∨ find_exact want s ∈ chain s.
Proof.
  induction s as [|v f n IH]; [by left|]. cbn [find_exact chain].
  destruct (pair_eqb want v).
  - right. apply elem_of_cons; by left.
  - destruct IH as [IH | IH]; [by left | right; apply elem_of_cons; by right].
Qed.

Lemma find_in_major_in_chain lim s : ∀ imaj last r,
  find_in_major lim imaj last s = Ret r →
  r = nilSchema ∨ r = last ∨ r ∈ chain s.
Proof.
  induction s as [|v f n IH]; intros imaj last r H; cbn [find_in_major] in H.
  - destruct (imaj <=? lim); [discriminate | right; left; congruence].
  - destruct (imaj <=? lim); [|right; left; congruence].
    cbn [chain]. destruct (is_nil n) eqn:En.
    + destruct (imaj =? lim); simplify_eq; [|by left].
      right; right. apply elem_of_cons; by left.
    + destruct (IH _ _ _ H) as [? | [-> | ?]]; [by left | |].
      * right; right. apply elem_of_cons; by left.
      * right; right. apply elem_of_cons; by right.
Qed.

(** X3: whatever the option does to the search parameters, a search that
    returns yields nil or a schema reachable from the start schema through
    successors: it never goes backwards and never leaves the chain. *)
Theorem Find_stays_in_chain (s : Schema) (opt : SearchOption) (r : Schema) :
  Find s opt = Ret r → r = nilSchema ∨ r ∈ chain s.
Proof.
  unfold Find. destruct (is_nil s) eqn:Hs; [left; congruence|].
  assert (Hne : s ≠ nilSchema) by (intros ->; discriminate).
  destruct (ssopt_validate (opt ssopt_zero)); [discriminate|].
  assert (Hmaj : ∀ lim,
    (if lim <? (Version s).1 then Ret nilSchema
     else find_in_major lim (Version s).1 nilSchema s) = Ret r →
    r = nilSchema ∨ r ∈ chain s).
  { intros lim H. destruct (lim <? (Version s).1); [left; congruence|].
    destruct (find_in_major_in_chain _ _ _ _ _ H) as [? | [? | ?]]; auto. }
  destruct (latest (opt ssopt_zero)).
  { intros [= <-]. right. by apply find_latest_in_chain. }
  destruct (latestInCurrentMajor (opt ssopt_zero)); [apply Hmaj|].
  destruct (hasLatestInMajor (opt ssopt_zero)); [apply Hmaj|].
  intros [= <-]. apply find_exact_in_chain.
Qed.

Lemma Find_stays_in_chain_witness :
  Example_lineage.s10 = nilSchema ∨ Example_lineage.s10 ∈ chain Example_lineage.s01.
Proof.
  apply (Find_stays_in_chain Example_lineage.s01 (Exact 1 0) Example_lineage.s10).
  reflexivity.
Defined.

Lemma find_exact_none want s :
  (∀ x, x ∈ chain s → Version x ≠ want) → find_exact want s = nilSchema.
Proof.
  induction s as [|v f n IH]; [done|]. intros H. cbn [find_exact].
  destruct (pair_eqb want v) eqn:E.
  - apply pair_eqb_eq in E. exfalso. apply (H (mkSchema v f n)); [apply elem_of_cons; by left | done].
  - apply IH. intros x Hx. apply H. apply elem_of_cons; by right.
Qed.

(** X4: for a version other than (0, 0), the exact search returns the first
    reachable schema that carries the version, and nil when no reachable
    schema carries it. *)
Theorem Find_Exact_first_or_nil (s : Schema) (a b : Z) :
  s ≠ nilSchema → (a, b) ≠ (0, 0) →
  (∀ older x, chain s = older ++ chain x → x ≠ nilSchema → Version x = (a, b) →
     Forall (λ y, Version y ≠ (a, b)) older → Find s (Exact a b) = Ret x) ∧
  ((∀ x, x ∈ chain s → Version x ≠ (a, b)) → Find s (Exact a b) = Ret nilSchema).
Proof.
  intros Hs Hab.
  assert (HF : Find s (Exact a b) = Ret (find_exact (a, b) s)).
  { unfold Find. destruct s; [congruence|]. cbn [is_nil].
    by rewrite ssopt_validate_Exact. }
  split.
  - intros older x Hc Hx Hv Hold. rewrite HF. f_equal.
    by apply (find_exact_first _ s older x).
  - intros Hnone. rewrite HF. f_equal. by apply find_exact_none.
Qed.

Lemma Find_Exact_first_or_nil_witness :
  Find Example_lineage.s00 (Exact 1 0) = Ret Example_lineage.s10 ∧
  Find Example_lineage.s00 (Exact 2 0) = Ret nilSchema.
Proof.
  split.
  - apply (proj1 (Find_Exact_first_or_nil Example_lineage.s00 1 0 ltac:(discriminate)
                    ltac:(discriminate))
             [Example_lineage.s00; Example_lineage.s01] Example_lineage.s10).
    + reflexivity.
    + discriminate.
    + reflexivity.
    + repeat constructor; discriminate.
  - apply (proj2 (Find_Exact_first_or_nil Example_lineage.s00 2 0 ltac:(discriminate)
                    ltac:(discriminate))).
    intros x Hx. simpl in Hx.
    repeat (apply elem_of_cons in Hx as [-> | Hx]; [discriminate|]).
    by apply elem_of_nil in Hx.
Defined.

(** X5: the option check accepts the search parameters exactly when one
    search criterion is set: [latest], an [exact] version other than (0, 0),
    a flagged [latestInMajor] other than -1, or [latestInCurrentMajor]; and
    an unflagged [latestInMajor] must be 0. *)
Theorem ssopt_validate_one_criterion (p : ssopt) :
  ssopt_validate p = None ↔
    (hasLatestInMajor p = true ∨ latestInMajor p = 0) ∧
    length (filter (λ c : bool, c = true)
              [latest p;
               negb (pair_eqb (exact p) (0, 0));
               hasLatestInMajor p && negb (latestInMajor p =? -1);
               latestInCurrentMajor p]) = 1%nat.
Proof.
  destruct p as [l lim has cur ex]. unfold ssopt_validate.
  cbn [latest latestInMajor hasLatestInMajor latestInCurrentMajor exact].
  destruct (pair_eqb ex (0, 0)), has, l, cur;
    destruct (Z.eqb_spec lim 0) as [H0|H0], (Z.eqb_spec lim (-1)) as [H1|H1];
    cbn;
    (split;
     [ intros H; try discriminate H; (split; [(by left) || (by right) | reflexivity])
     | intros [Hd Hc]; try discriminate Hc; try reflexivity;
       destruct Hd as [Hd|Hd]; first [discriminate Hd | lia] ]).
Qed.

(** ** Further properties of AsArray and SearchAndValidate *)

Lemma AsArray_step_Ret ret sch ret' :
  AsArray_step ret sch = Ret ret' →
  let maj := (Version sch).1 in
  let base := if Z.of_nat (length ret) =? maj then ret ++ [[]] else ret in
  0 <= maj ∧
  ∃ row, base !! Z.to_nat maj = Some row ∧
         ret' = <[Z.to_nat maj := row ++ [sch]]> base.
Proof.
  intros H maj base. unfold AsArray_step in H. fold maj base in H.
  destruct (maj <? 0) eqn:E; [discriminate|]. apply Z.ltb_ge in E.
  split; [done|]. destruct (base !! Z.to_nat maj) as [row|]; [|discriminate].
  exists row. split; [done | congruence].
Qed.

Lemma concat_insert_snoc {A} (ls : list (list A)) i row x :
  ls !! i = Some row → concat (<[i := row ++ [x]]> ls) ≡ₚ concat ls ++ [x].
Proof.
  intros H. rewrite insert_take_drop by (by eapply lookup_lt_Some).
  rewrite <- (take_drop_middle ls i row H) at 3.
  rewrite !concat_app, !concat_cons.
  rewrite <- (app_assoc (concat (take i ls))).
  apply Permutation_app_head.
  rewrite <- (app_assoc row), <- (app_assoc row).
  apply Permutation_app_head. apply Permutation_app_comm.
Qed.

Lemma AsArray_step_inv ret sch ret' :
  AsArray_step ret sch = Ret ret' → rows_by_major ret →
  rows_by_major ret' ∧ concat ret' ≡ₚ concat ret ++ [sch].
Proof.
  intros H Hinv. apply AsArray_step_Ret in H as (Hmaj & row & Hrow & ->).
  set (maj := (Version sch).1) in *.
  set (base := if Z.of_nat (length ret) =? maj then ret ++ [[]] else ret) in *.
  assert (Hbase : rows_by_major base ∧ concat base = concat ret).
  { unfold base. destruct (_ =? _); [|done]. split.
    - intros o r x Ho Hx. apply lookup_app_Some in Ho as [Ho | [_ Ho]]; [by eapply Hinv|].
      apply list_lookup_singleton_Some in Ho as [_ <-]. by apply elem_of_nil in Hx.
    - by rewrite concat_app, app_nil_r. }
  destruct Hbase as [Hb Hc]. split.
  - intros o r x Ho Hx. destruct (decide (o = Z.to_nat maj)) as [->|Hne].
    + rewrite list_lookup_insert_eq in Ho by (by eapply lookup_lt_Some).
      injection Ho as <-. apply elem_of_app in Hx as [Hx | Hx].
      * by eapply Hb.
      * apply list_elem_of_singleton in Hx as ->. fold maj. lia.
    + rewrite list_lookup_insert_ne in Ho by done. by eapply Hb.
  - rewrite <- Hc. by apply concat_insert_snoc.
Qed.

Lemma AsArray_loop_inv flat : ∀ ret arr,
  AsArray_loop ret flat = Ret arr → rows_by_major ret →
  rows_by_major arr ∧ concat arr ≡ₚ concat ret ++ flat.
Proof.
  induction flat as [|sch flat IH]; intros ret arr H Hinv; cbn [AsArray_loop] in H.
  - injection H as <-. by rewrite app_nil_r.
  - destruct (AsArray_step ret sch) as [ret'|] eqn:E; [|discriminate].
    cbn [mbind outcome_bind] in H.
    destruct (AsArray_step_inv _ _ _ E Hinv) as [Hinv' Hp].
    destruct (IH _ _ H Hinv') as [Harr Hq]. split; [done|].
    rewrite Hq, Hp, <- app_assoc. done.
Qed.

(** X6: whenever [AsArray] returns, the array holds every reachable schema
    exactly once and the row with index [o] holds only schemas of major
    [o]. *)
Theorem AsArray_groups_by_major (s : Schema) (arr : list (list Schema)) :
  AsArray s = Ret arr →
  concat arr ≡ₚ chain s ∧
  ∀ o row x, arr !! o = Some row → x ∈ row → (Version x).1 = Z.of_nat o.
Proof.
  intros H. destruct (AsArray_loop_inv (chain s) [] arr H) as [Hinv Hp].
  - intros o row x Ho. by rewrite lookup_nil in Ho.
  - split; [by rewrite Hp | exact Hinv].
Qed.

Lemma AsArray_groups_by_major_witness :
  concat [[Example_lineage.s00; Example_lineage.s01]; [Example_lineage.s10]]
    ≡ₚ chain Example_lineage.s00 ∧
  ∀ o row x,
    [[Example_lineage.s00; Example_lineage.s01]; [Example_lineage.s10]] !! o = Some row →
    x ∈ row → (Version x).1 = Z.of_nat o.
Proof. apply (AsArray_groups_by_major Example_lineage.s00). reflexivity. Defined.

Lemma AsArray_step_fits ret sch :
  let maj := (Version sch).1 in
  (if maj =? Z.of_nat (length ret) then
     ∃ ret', AsArray_step ret sch = Ret ret' ∧ length ret' = S (length ret)
   else if (0 <=? maj) && (maj <? Z.of_nat (length ret)) then
     ∃ ret', AsArray_step ret sch = Ret ret' ∧ length ret' = length ret
   else ∃ msg, AsArray_step ret sch = Panic msg).
Proof.
  intros maj. unfold AsArray_step. fold maj. rewrite (Z.eqb_sym _ maj).
  destruct (Z.eqb_spec maj (Z.of_nat (length ret))) as [E|E].
  - assert (E0 : (maj <? 0) = false) by (apply Z.ltb_ge; lia). rewrite E0.
    assert (Hi : Z.to_nat maj = length ret) by lia.
    rewrite Hi, lookup_snoc. eexists. split; [done|].
    rewrite length_insert, length_app. simpl. lia.
  - destruct (Z.ltb_spec maj 0) as [E0|E0].
    { replace (0 <=? maj) with false by (symmetry; apply Z.leb_gt; lia). by eexists. }
    replace (0 <=? maj) with true by (symmetry; apply Z.leb_le; lia). cbn [andb].
    destruct (Z.ltb_spec maj (Z.of_nat (length ret))) as [E1|E1].
    + destruct (lookup_lt_is_Some_2 ret (Z.to_nat maj)) as [row Hrow]; [lia|].
      rewrite Hrow. eexists. split; [done|]. by rewrite length_insert.
    + rewrite lookup_ge_None_2 by lia. by eexists.
Qed.

Lemma AsArray_loop_fits flat : ∀ ret,
  (∃ arr, AsArray_loop ret flat = Ret arr) ↔ majors_fit (length ret) flat = true.
Proof.
  induction flat as [|sch flat IH]; intros ret; cbn [AsArray_loop majors_fit].
  - split; [done | by eexists].
  - pose proof (AsArray_step_fits ret sch) as Hstep. cbn zeta in Hstep.
    destruct ((Version sch).1 =? Z.of_nat (length ret)).
    + destruct Hstep as [ret' [-> Hlen]]. cbn [mbind outcome_bind].
      by rewrite IH, Hlen.
    + destruct ((0 <=? (Version sch).1) && ((Version sch).1 <? Z.of_nat (length ret))).
      * destruct Hstep as [ret' [-> Hlen]]. cbn [mbind outcome_bind andb].
        by rewrite IH, Hlen.
      * destruct Hstep as [msg ->]. cbn [mbind outcome_bind andb].
        split; [by intros [? [=]] | done].
Qed.

(** X7: [AsArray] returns, rather than panics, exactly when every schema of
    the chain has a non-negative major that is at most the number of
    different majors opened before it. *)
Theorem AsArray_returns_iff (s : Schema) :
  (∃ arr, AsArray s = Ret arr) ↔ majors_fit 0 (chain s) = true.
Proof. apply (AsArray_loop_fits (chain s) []). Qed.

Lemma positional_next_spec a b :
  positional_next a b = true ↔ b = (a.1, a.2 + 1) ∨ b = (a.1 + 1, 0).
Proof. unfold positional_next. by rewrite orb_true_iff, !pair_eqb_eq. Qed.

Lemma indexed_snoc_row rows row sch :
  indexed_by_version (rows ++ [row]) →
  Version sch = (Z.of_nat (length rows), Z.of_nat (length row)) →
  indexed_by_version (rows ++ [row ++ [sch]]).
Proof.
  intros Hinv Hv o r i x Ho Hi.
  apply lookup_app_Some in Ho as [Ho | [Hlen Ho]].
  - apply (Hinv o r i x); [by apply lookup_app_l_Some | done].
  - apply list_lookup_singleton_Some in Ho as [Ho <-].
    assert (o = length rows) as -> by lia.
    apply lookup_app_Some in Hi as [Hi | [Hlen' Hi]].
    + apply (Hinv (length rows) row i x); [apply lookup_snoc | done].
    + apply list_lookup_singleton_Some in Hi as [Hi <-].
      rewrite Hv. f_equal. lia.
Qed.

Lemma indexed_new_row ret sch :
  indexed_by_version ret →
  Version sch = (Z.of_nat (length ret), 0) →
  indexed_by_version (ret ++ [[sch]]).
Proof.
  intros Hinv Hv o r i x Ho Hi.
  apply lookup_app_Some in Ho as [Ho | [Hlen Ho]]; [by eapply Hinv|].
  apply list_lookup_singleton_Some in Ho as [Ho <-].
  apply list_lookup_singleton_Some in Hi as [-> <-].
  rewrite Hv. f_equal. lia.
Qed.

Lemma AsArray_loop_positional flat : ∀ rows row prev,
  positional_steps (prev :: flat) = true →
  Version prev = (Z.of_nat (length rows), Z.of_nat (length row) - 1) →
  indexed_by_version (rows ++ [row]) →
  ∃ arr, AsArray_loop (rows ++ [row]) flat = Ret arr ∧ indexed_by_version arr.
Proof.
  induction flat as [|sch flat IH]; intros rows row prev Hsteps Hprev Hinv.
  - by exists (rows ++ [row]).
  - cbn [positional_steps] in Hsteps. apply andb_prop in Hsteps as [Hnext Hsteps].
    apply positional_next_spec in Hnext. rewrite Hprev in Hnext. cbn [fst snd] in Hnext.
    cbn [AsArray_loop]. unfold AsArray_step. rewrite length_app. cbn [length].
    destruct Hnext as [Hv | Hv]; rewrite Hv; cbn [fst].
    + (* next minor of the same major *)
      destruct (Z.eqb_spec (Z.of_nat (length rows + 1)) (Z.of_nat (length rows))); [lia|].
      destruct (Z.ltb_spec (Z.of_nat (length rows)) 0); [lia|].
      rewrite Nat2Z.id, lookup_snoc, insert_snoc. cbn [mbind outcome_bind].
      apply (IH rows (row ++ [sch]) sch Hsteps).
      * rewrite Hv, length_app. cbn [length]. f_equal. lia.
      * apply indexed_snoc_row; [done|]. rewrite Hv. f_equal. lia.
    + (* first schema of the next major *)
      replace (Z.of_nat (length rows) + 1) with (Z.of_nat (length rows + 1)) by lia.
      rewrite Z.eqb_refl.
      destruct (Z.ltb_spec (Z.of_nat (length rows + 1)) 0); [lia|].
      rewrite Nat2Z.id.
      replace (length rows + 1)%nat with (length (rows ++ [row]))
        by (rewrite length_app; simpl; lia).
      rewrite lookup_snoc, insert_snoc. cbn [mbind outcome_bind].
      apply (IH (rows ++ [row]) [sch] sch Hsteps).
      * rewrite Hv. cbn [length]. f_equal. rewrite length_app. simpl. lia.
      * apply indexed_new_row; [done|]. rewrite Hv. f_equal.
        rewrite length_app. simpl. lia.
Qed.

(** X8: on a chain numbered strictly by position, [AsArray] returns an
    array whose outer index is the major and whose inner index is the minor
    of the schema stored there. *)
Theorem AsArray_indexed_by_version (s : Schema) :
  positional s = true →
  ∃ arr, AsArray s = Ret arr ∧
    ∀ o row i x, arr !! o = Some row → row !! i = Some x →
                 Version x = (Z.of_nat o, Z.of_nat i).
Proof.
  unfold positional, AsArray. intros [Hz Hsteps]%andb_prop. apply pair_eqb_eq in Hz.
  destruct s as [|v f n].
  { exists []. split; [done|]. intros o row i x Ho. by rewrite lookup_nil in Ho. }
  cbn [Version] in Hz. subst v. set (s := mkSchema (0, 0) f n).
  change (chain s) with (s :: chain n) in *.
  cbn [AsArray_loop]. unfold AsArray_step. cbn [Version s length fst].
  change (Z.of_nat 0 =? 0) with true. cbn.
  apply (AsArray_loop_positional (chain n) [] [s] s Hsteps); [done|].
  intros o row i x Ho Hi.
  apply list_lookup_singleton_Some in Ho as [-> <-].
  by apply list_lookup_singleton_Some in Hi as [-> <-].
Qed.

Lemma AsArray_indexed_by_version_witness :
  ∃ arr, AsArray Example_lineage.s00 = Ret arr ∧
    ∀ o row i x, arr !! o = Some row → row !! i = Some x →
                 Version x = (Z.of_nat o, Z.of_nat i).
Proof. apply (AsArray_indexed_by_version Example_lineage.s00). reflexivity. Defined.

(** X9: whenever [SearchAndValidate] returns, a non-nil result is a
    reachable schema that accepts the instance and comes with a nil error;
    a nil result means that every reachable schema rejected the instance,
    and then the error is non-nil unless the start schema itself is nil. *)
Theorem SearchAndValidate_sound (s : Schema) (v : any)
    (log : list Schema) (r : Schema) (e : option error) :
  SearchAndValidate s v = Ret (log, r, e) →
  (r ≠ nilSchema → r ∈ chain s ∧ accepts v r ∧ e = None) ∧
  (r = nilSchema → (∀ x, x ∈ chain s → ¬ accepts v x) ∧ (s ≠ nilSchema → e ≠ None)).
Proof.
  unfold SearchAndValidate. intros H.
  destruct (AsArray s) as [arr|] eqn:Harr; [|discriminate].
  cbn [mbind outcome_bind mret outcome_ret] in H.
  assert (Hperm : concat arr ≡ₚ chain s).
  { apply (AsArray_loop_inv (chain s) [] arr Harr).
    intros o row x Ho. by rewrite lookup_nil in Ho. }
  assert (Hin : ∀ x, x ∈ reverse (concat arr) ↔ x ∈ chain s).
  { intros x. by rewrite elem_of_reverse, Hperm. }
  rewrite search_major_flat, reverse_concat in H.
  destruct (split_first_accept v (reverse (concat arr)))
    as [Hall | (rej & r' & older & Hsplit & Hrej & Hr)].
  - destruct (search_minor_all_reject v _ None [] Hall) as [e' [He' Hlast]].
    rewrite He' in H. injection H as <- <- <-.
    split; [done|]. intros _. split.
    + intros x Hx. apply (proj1 (list.Forall_forall _ _) Hall x). by apply Hin.
    + intros Hs. rewrite Hlast.
      destruct (last (reverse (concat arr))) as [y|] eqn:Ey.
      * assert (Hy : y ∈ reverse (concat arr)).
        { apply last_Some in Ey as [l' ->]. apply elem_of_app; right. apply elem_of_cons; by left. }
        exact (proj1 (list.Forall_forall _ _) Hall y Hy).
      * apply last_None in Ey. exfalso.
        assert (Hself : s ∈ reverse (concat arr)) by (apply Hin; by apply chain_self).
        rewrite Ey in Hself. by apply elem_of_nil in Hself.
  - rewrite Hsplit in H. rewrite search_minor_first_accept in H by done.
    injection H as <- <- <-.
    assert (Hr' : r' ∈ chain s).
    { apply Hin. rewrite Hsplit. apply elem_of_app; right. apply elem_of_cons; by left. }
    split; [done|]. intros ->. by apply chain_non_nil in Hr'.
Qed.

Lemma SearchAndValidate_sound_witness :
  (Example_lineage.s10 ≠ nilSchema →
     Example_lineage.s10 ∈ chain Example_lineage.s00 ∧
     accepts (AnyString "baz") Example_lineage.s10 ∧ None = (None : option error)) ∧
  (Example_lineage.s10 = nilSchema →
     (∀ x, x ∈ chain Example_lineage.s00 → ¬ accepts (AnyString "baz") x) ∧
     (Example_lineage.s00 ≠ nilSchema → None ≠ (None : option error))).
Proof.
  apply (SearchAndValidate_sound Example_lineage.s00 (AnyString "baz")
           [Example_lineage.s10] Example_lineage.s10 None).
  reflexivity.
Defined.

(** ** The chain as a list *)

Lemma chain_suffix s x : x ∈ chain s → ∃ pre, chain s = pre ++ chain x.
Proof.
  induction s as [|v f n IH]; simpl; intros Hx; [by apply elem_of_nil in Hx|].
  apply elem_of_cons in Hx as [-> | Hx]; [by exists []|].
  destruct (IH Hx) as [pre ->]. by exists (mkSchema v f n :: pre).
Qed.

Lemma chain_NoDup s : NoDup (chain s).
Proof.
  induction s as [|v f n IH]; [constructor|]. cbn [chain].
  apply NoDup_cons_2; [|done]. intros Hin.
  destruct (chain_suffix _ _ Hin) as [pre Hpre].
  apply (f_equal length) in Hpre. rewrite length_app in Hpre. simpl in Hpre. lia.
Qed.

(** X19: whenever [SearchAndValidate] returns, [Validate] has been called
    at most once per schema and only on reachable schemas; and when no
    schema is returned, it has been called on every reachable schema. *)
Theorem SearchAndValidate_calls (s : Schema) (v : any)
    (log : list Schema) (r : Schema) (e : option error) :
  SearchAndValidate s v = Ret (log, r, e) →
  NoDup log ∧ (∀ x, x ∈ log → x ∈ chain s) ∧ (r = nilSchema → log ≡ₚ chain s).
Proof.
  unfold SearchAndValidate. intros H.
  destruct (AsArray s) as [arr|] eqn:Harr; [|discriminate].
  cbn [mbind outcome_bind mret outcome_ret] in H.
  assert (Hperm : reverse (concat arr) ≡ₚ chain s).
  { rewrite reverse_Permutation. apply (AsArray_loop_inv (chain s) [] arr Harr).
    intros o row x Ho. by rewrite lookup_nil in Ho. }
  assert (Hnd : NoDup (reverse (concat arr))) by (rewrite Hperm; apply chain_NoDup).
  rewrite search_major_flat, reverse_concat in H.
  destruct (split_first_accept v (reverse (concat arr)))
    as [Hall | (rej & r' & older & Hsplit & Hrej & Hr)].
  - destruct (search_minor_all_reject v _ None [] Hall) as [e' [He' _]].
    rewrite He' in H. injection H as <- <- <-. cbn [app].
    split; [done|]. split; [|done]. intros x Hx. by rewrite <- Hperm.
  - rewrite Hsplit in H, Hnd, Hperm. rewrite search_minor_first_accept in H by done.
    injection H as <- <- <-. cbn [app].
    assert (Hr' : r' ∈ chain s).
    { rewrite <- Hperm. apply elem_of_app; right. apply elem_of_cons; by left. }
    split; [|split].
    + replace (rej ++ r' :: older) with ((rej ++ [r']) ++ older) in Hnd
        by (by rewrite <- app_assoc).
      by apply NoDup_app in Hnd as [? _].
    + intros x Hx. rewrite <- Hperm.
      apply elem_of_app in Hx as [Hx | Hx]; [apply elem_of_app; by left|].
      apply list_elem_of_singleton in Hx as ->.
      apply elem_of_app; right. apply elem_of_cons; by left.
    + intros ->. by apply chain_non_nil in Hr'.
Qed.

Lemma SearchAndValidate_calls_witness :
  NoDup (reverse (chain Example_lineage.s00)) ∧
  (∀ x, x ∈ reverse (chain Example_lineage.s00) → x ∈ chain Example_lineage.s00) ∧
  (nilSchema = nilSchema → reverse (chain Example_lineage.s00) ≡ₚ chain Example_lineage.s00).
Proof.
  apply (SearchAndValidate_calls Example_lineage.s00 (AnyString "zzz")
           (reverse (chain Example_lineage.s00)) nilSchema (Some "0.0: mismatch"%string)).
  reflexivity.
Defined.

(** X20: the latest schema is the same from every schema of the chain: a
    search for the latest schema that starts at a schema reachable from [s]
    returns what it returns from [s]. *)
Theorem Find_Latest_from_reachable (s r : Schema) :
  r ∈ chain s → Find r Latest = Find s Latest.
Proof.
  intros Hr. pose proof (chain_non_nil _ _ Hr) as Hrn.
  assert (Hsn : s ≠ nilSchema) by (intros ->; by apply elem_of_nil in Hr).
  assert (HF : ∀ t, t ≠ nilSchema → Find t Latest = Ret (find_latest t)).
  { intros t Ht. unfold Find. destruct t; [congruence|]. cbn [is_nil].
    by rewrite ssopt_validate_Latest. }
  rewrite !HF by done. f_equal.
  destruct (find_latest_last r Hrn) as [Hlr _].
  destruct (find_latest_last s Hsn) as [Hls _].
  destruct (chain_suffix _ _ Hr) as [pre Hpre]. rewrite Hpre in Hls.
  destruct (chain_head r Hrn) as [rest Hrest]. rewrite Hrest in Hls, Hlr.
  rewrite last_app_cons in Hls. congruence.
Qed.

Lemma Find_Latest_from_reachable_witness :
  Find Example_lineage.s01 Latest = Find Example_lineage.s00 Latest.
Proof.
  apply (Find_Latest_from_reachable Example_lineage.s00 Example_lineage.s01).
  apply elem_of_cons; right. apply elem_of_cons; by left.
Defined.

Lemma steps_ok_suffix pre l : steps_ok (pre ++ l) = true → steps_ok l = true.
Proof.
  induction pre as [|a pre IH]; [done|]. intros H. apply IH.
  by apply (steps_ok_tail a).
Qed.

Lemma Find_LatestInCurrentMajor_eq s :
  s ≠ nilSchema →
  Find s LatestInCurrentMajor
    = find_in_major (Version s).1 (Version s).1 nilSchema s.
Proof.
  intros Hs. unfold Find. destruct s; [congruence|]. cbn [is_nil].
  rewrite ssopt_validate_LatestInCurrentMajor.
  unfold LatestInCurrentMajor, ssopt_zero; cbn [latest latestInCurrentMajor].
  by rewrite Z.ltb_irrefl.
Qed.

(** X21: on a chain whose versions follow the positional numbering, the
    latest schema of a major is its own latest-in-current-major: searching
    again from the result returns the result. *)
Theorem Find_LatestInCurrentMajor_idempotent (s r : Schema) :
  s ≠ nilSchema → steps_ok (chain s) = true →
  Find s LatestInCurrentMajor = Ret r →
  Find r LatestInCurrentMajor = Ret r.
Proof.
  intros Hs Hsteps HF. rewrite Find_LatestInCurrentMajor_eq in HF by done.
  destruct (find_in_major_run (Version s).1 s nilSchema Hs Hsteps eq_refl)
    as [r0 (Hr0 & Hin & Hmaj & Hmax)].
  rewrite Hr0 in HF. injection HF as ->.
  pose proof (chain_non_nil _ _ Hin) as Hrn.
  destruct (chain_suffix _ _ Hin) as [pre Hpre].
  assert (Hsteps' : steps_ok (chain r) = true).
  { apply (steps_ok_suffix pre). by rewrite <- Hpre. }
  rewrite Find_LatestInCurrentMajor_eq by done.
  destruct (find_in_major_run (Version r).1 r nilSchema Hrn Hsteps' eq_refl)
    as [r' (Hr' & Hin' & Hmaj' & _)].
  rewrite Hr'. f_equal.
  destruct (chain_head r Hrn) as [rest Hrest]. rewrite Hrest in Hin', Hsteps'.
  apply elem_of_cons in Hin' as [-> | Hin']; [done|]. exfalso.
  pose proof (steps_ok_majors _ _ _ Hsteps' Hin') as Hlt.
  assert (Hle : version_le (Version r') (Version r)).
  { apply Hmax; [|congruence]. rewrite Hpre, Hrest.
    apply elem_of_app; right. apply elem_of_cons; by right. }
  unfold version_le, version_lt in *.
  destruct Hle as [Heq | Hle]; [rewrite Heq in Hlt|]; lia.
Qed.

Lemma Find_LatestInCurrentMajor_idempotent_witness :
  Find Example_lineage.s01 LatestInCurrentMajor = Ret Example_lineage.s01.
Proof.
  apply (Find_LatestInCurrentMajor_idempotent Example_lineage.s00 Example_lineage.s01).
  - discriminate.
  - reflexivity.
  - reflexivity.
Defined.

(** ** Further properties of the string replacement *)

Lemma prefix_app (old s : string) : String.prefix old (old +:+ s) = true.
Proof.
  induction old as [|c old IH]; simpl; [by destruct s|].
  destruct (Ascii.ascii_dec c c); [exact IH | congruence].
Qed.

Lemma prefix_split (old s : string) :
  String.prefix old s = true → ∃ b, s = old +:+ b.
Proof.
  revert s. induction old as [|c old IH]; intros s H; [by exists s|].
  destruct s as [|c' s]; [discriminate|]. simpl in H.
  destruct (Ascii.ascii_dec c c') as [->|]; [|discriminate].
  destruct (IH s H) as [b ->]. by exists b.
Qed.

Lemma replace_from_skip (old new t s : string) :
  replace_from old new (String.length t) (t +:+ s) = replace_from old new O s.
Proof. induction t as [|c t IH]; [done | exact IH]. Qed.

Lemma replace_from_no_first (c0 : Ascii.ascii) (old' new a s : string) :
  no_byte c0 a = true →
  replace_from (String c0 old') new O (a +:+ s)
    = a +:+ replace_from (String c0 old') new O s.
Proof.
  induction a as [|c a IH]; [done|]. cbn [no_byte]. intros [Hc Ha]%andb_prop.
  apply negb_true_iff, Ascii.eqb_neq in Hc.
  change (String c a +:+ s) with (String c (a +:+ s)).
  cbn [replace_from String.prefix].
  destruct (Ascii.ascii_dec c0 c); [congruence|]. by rewrite IH.
Qed.

Lemma append_empty_r (s : string) : s +:+ "" = s.
Proof.
  induction s as [|c s IH]; [done|].
  change (String c s +:+ "") with (String c (s +:+ "")). by rewrite IH.
Qed.

Lemma bytes_Replace_no_first (c0 : Ascii.ascii) (old' new s : string) :
  no_byte c0 s = true → bytes_Replace s (String c0 old') new = s.
Proof.
  intros H. unfold bytes_Replace.
  rewrite <- (append_empty_r s) at 1. rewrite replace_from_no_first by done.
  cbn [replace_from]. apply append_empty_r.
Qed.

Lemma replace_from_leading (c0 : Ascii.ascii) (old' new s : string) :
  replace_from (String c0 old') new O (String c0 old' +:+ s)
    = new +:+ replace_from (String c0 old') new O s.
Proof.
  change (String c0 old' +:+ s) with (String c0 (old' +:+ s)). cbn [replace_from].
  change (String c0 (old' +:+ s)) with (String c0 old' +:+ s). rewrite prefix_app.
  f_equal.
  replace (String.length (String c0 old') - 1)%nat with (String.length old')
    by (cbn [String.length]; lia).
  apply replace_from_skip.
Qed.

(** X10: [bytes.Replace] with count -1 and a non-empty pattern: a leading
    occurrence is replaced and the scan resumes behind it (so occurrences
    never overlap); bytes in front of which the pattern cannot start are
    copied; and a string in which the pattern does not occur is returned
    unchanged. *)
Theorem bytes_Replace_leftmost (c0 : Ascii.ascii) (old' new : string) :
  let old := String c0 old' in
  (∀ s, bytes_Replace (old +:+ s) old new = new +:+ bytes_Replace s old new) ∧
  (∀ a s, no_byte c0 a = true →
          bytes_Replace (a +:+ s) old new = a +:+ bytes_Replace s old new) ∧
  (∀ s, (∀ a b, s ≠ a +:+ old +:+ b) → bytes_Replace s old new = s).
Proof.
  intros old. split; [|split].
  - intros s. apply replace_from_leading.
  - intros a s Ha. by apply replace_from_no_first.
  - intros s. unfold bytes_Replace. induction s as [|c s IH]; intros Hno; [done|].
    cbn [replace_from]. destruct (String.prefix old (String c s)) eqn:E.
    + apply prefix_split in E as [b Hb]. exfalso. apply (Hno "" b). exact Hb.
    + f_equal. apply IH. intros a b ->. apply (Hno (String c a) b). done.
Qed.

Lemma no_byte_app (c : Ascii.ascii) (a b : string) :
  no_byte c (a +:+ b) = no_byte c a && no_byte c b.
Proof.
  induction a as [|c' a IH]; [done|].
  change (String c' a +:+ b) with (String c' (a +:+ b)). cbn [no_byte].
  by rewrite IH, andb_assoc.
Qed.

Lemma replace_escape (old' new a b : string) :
  no_byte backslash a = true → no_byte backslash b = true →
  bytes_Replace (a +:+ String backslash old' +:+ b) (String backslash old') new
    = a +:+ new +:+ b.
Proof.
  intros Ha Hb. unfold bytes_Replace. rewrite replace_from_no_first by done.
  f_equal.
  rewrite replace_from_leading. f_equal.
  by apply bytes_Replace_no_first.
Qed.

Lemma replace_other_escape (old' t new a b : string) :
  no_byte backslash a = true → no_byte backslash t = true →
  no_byte backslash b = true →
  String.prefix (String backslash old') (String backslash (t +:+ b)) = false →
  bytes_Replace (a +:+ String backslash t +:+ b) (String backslash old') new
    = a +:+ String backslash t +:+ b.
Proof.
  intros Ha Ht Hb Hp. unfold bytes_Replace. rewrite replace_from_no_first by done.
  f_equal. change (String backslash t +:+ b) with (String backslash (t +:+ b)).
  cbn [replace_from]. rewrite Hp. f_equal.
  rewrite replace_from_no_first by done. f_equal.
  by apply bytes_Replace_no_first.
Qed.

(** ** Further properties of the default handling *)

Section MoreDefaults.
Variable C : Cue.

(** X11: the marshalled text is post-processed as follows: a marshalling
    error is passed on with the text as it is; a text without a backslash is
    returned unchanged; and each of the three escaped forms of [<], [>] and
    [&], standing between backslash-free texts, is turned into the plain
    byte. *)
Theorem convertCUEValueToString_unescapes (v : value C) :
  (∀ re err, Marshal C v = (re, Some err) →
     convertCUEValueToString C v = (re, Some err)) ∧
  (∀ re, Marshal C v = (re, None) → no_byte backslash re = true →
     convertCUEValueToString C v = (re, None)) ∧
  (∀ a b, no_byte backslash a = true → no_byte backslash b = true →
     (Marshal C v = (a +:+ "\u003c" +:+ b, None) →
        convertCUEValueToString C v = (a +:+ "<" +:+ b, None)) ∧
     (Marshal C v = (a +:+ "\u003e" +:+ b, None) →
        convertCUEValueToString C v = (a +:+ ">" +:+ b, None)) ∧
     (Marshal C v = (a +:+ "\u0026" +:+ b, None) →
        convertCUEValueToString C v = (a +:+ "&" +:+ b, None))).
Proof.
  unfold convertCUEValueToString. split; [|split].
  - by intros re err ->.
  - intros re -> Hre.
    change "\u003c"%string with (String backslash "u003c").
    change "\u003e"%string with (String backslash "u003e").
    change "\u0026"%string with (String backslash "u0026").
    by rewrite (bytes_Replace_no_first backslash "u003c" "<" re),
      (bytes_Replace_no_first backslash "u003e" ">" re),
      (bytes_Replace_no_first backslash "u0026" "&" re) by done.
  - intros a b Ha Hb.
    change "\u003c"%string with (String backslash "u003c").
    change "\u003e"%string with (String backslash "u003e").
    change "\u0026"%string with (String backslash "u0026").
    assert (Hplain : ∀ p, no_byte backslash p = true →
              no_byte backslash (a +:+ p +:+ b) = true).
    { intros p Hp. by rewrite !no_byte_app, Ha, Hp, Hb. }
    split; [|split]; intros ->.
    + rewrite replace_escape by done.
      by rewrite (bytes_Replace_no_first backslash "u003e" ">" (a +:+ "<" +:+ b)),
        (bytes_Replace_no_first backslash "u0026" "&" (a +:+ "<" +:+ b))
        by (by apply Hplain).
    + rewrite (replace_other_escape "u003c" "u003e") by done.
      rewrite replace_escape by done.
      by rewrite (bytes_Replace_no_first backslash "u0026" "&" (a +:+ ">" +:+ b))
        by (by apply Hplain).
    + rewrite (replace_other_escape "u003c" "u0026") by done.
      rewrite (replace_other_escape "u003e" "u0026") by done.
      by rewrite replace_escape.
Qed.

(** X12: the branch of a disjunction chosen for a list element is the first
    member whose unification with the element is concrete and valid; when no
    member qualifies the schema itself comes back with an error; a schema
    that is not a disjunction is its own branch. *)
Theorem getBranch_first_match (schemaObj concretObj : value C) :
  let fits def := ValidateConcrete C (Unify C def concretObj) = None in
  ((Expr C schemaObj).1 ≠ OrOp → getBranch C schemaObj concretObj = (schemaObj, None)) ∧
  ((Expr C schemaObj).1 = OrOp →
     (∀ pre def post, (Expr C schemaObj).2 = pre ++ def :: post →
        Forall (λ d, ¬ fits d) pre → fits def →
        getBranch C schemaObj concretObj = (def, None)) ∧
     (Forall (λ d, ¬ fits d) (Expr C schemaObj).2 →
        getBranch C schemaObj concretObj
          = (schemaObj, Some "no branch is found for list"%string))).
Proof.
  intros fits. unfold getBranch.
  destruct (Expr C schemaObj) as [op defs]. cbn [fst snd].
  assert (Hnone : ∀ l, Forall (λ d, ¬ fits d) l →
            List.find (λ def, bool_decide (fits def)) l = None).
  { induction l as [|d l IH]; [done|]. intros [Hd Hl]%Forall_cons. cbn [List.find].
    cbv beta in Hd. rewrite bool_decide_eq_false_2 by exact Hd. by apply IH. }
  split; [|intros Hop; split].
  - intros Hop. by destruct (decide (op = OrOp)).
  - intros pre def post -> Hpre Hdef. destruct (decide (op = OrOp)); [|done].
    assert (Hf : List.find (λ def, bool_decide (fits def)) (pre ++ def :: post) = Some def).
    { clear - Hpre Hdef. induction pre as [|d pre IH]; cbn [app List.find].
      - by rewrite bool_decide_eq_true_2 by exact Hdef.
      - apply Forall_cons in Hpre as [Hd Hpre]. cbv beta in Hd.
        rewrite bool_decide_eq_false_2 by exact Hd. by apply IH. }
    unfold fits in Hf. by rewrite Hf.
  - intros Hall. destruct (decide (op = OrOp)); [|done].
    specialize (Hnone defs Hall). unfold fits in Hnone. by rewrite Hnone.
Qed.

Lemma getDefault_narrows (icue : value C) :
  (getDefault C icue).1 = (Default C icue).1 ∧
  ((getDefault C icue).2 = true → (Default C icue).2 = true) ∧
  (KindOf C (Default C icue).1 ≠ ListKind → getDefault C icue = Default C icue).
Proof.
  unfold getDefault. destruct (Default C icue) as [d ex]. cbn [fst snd].
  destruct ex; cbn [andb]; [|done].
  destruct (bool_decide (KindOf C d = ListKind)) eqn:Ek.
  2:{ done. }
  apply bool_decide_eq_true in Ek.
  destruct (LenInt64 C d) as [len [e|]]; [by split; [|split]|].
  destruct (len <=? 0); [|done].
  destruct (Expr C icue) as [op vals].
  destruct (decide (op = OrOp)); [|by split; [|split]].
  destruct (negb _); by split; [|split].
Qed.

(** X16: [getDefault] never invents a default: it returns the value the
    evaluator reports, reports a default only if the evaluator does, and
    agrees with the evaluator whenever the reported value is not a concrete
    list. *)
Theorem getDefault_only_narrows (icue : value C) :
  (getDefault C icue).1 = (Default C icue).1 ∧
  ((getDefault C icue).2 = true → (Default C icue).2 = true) ∧
  (KindOf C (Default C icue).1 ≠ ListKind → getDefault C icue = Default C icue).
Proof. apply getDefault_narrows. Qed.

(** X17: a value is reported equal to the schema default only if the
    evaluator reports a default and value and default subsume each other;
    when the default is not a concrete list this is an equivalence. *)
Theorem isCueValueEqual_mutual_subsumption (inputdef input : value C) :
  let d := (Default C inputdef).1 in
  let mutual := Subsume C input d = None ∧ Subsume C d input = None in
  (isCueValueEqual C inputdef input = true → (Default C inputdef).2 = true ∧ mutual) ∧
  (KindOf C d ≠ ListKind →
     (isCueValueEqual C inputdef input = true ↔ (Default C inputdef).2 = true ∧ mutual)).
Proof.
  intros d mutual. unfold isCueValueEqual.
  destruct (getDefault_narrows inputdef) as (H1 & H2 & H3). fold d in H1, H3.
  destruct (getDefault C inputdef) as [d' ex'] eqn:Eg. cbn [fst snd] in H1, H2. subst d'.
  assert (Hiff :
    bool_decide (Subsume C input d = None) && bool_decide (Subsume C d input = None) = true
    ↔ mutual).
  { unfold mutual. by rewrite andb_true_iff, !bool_decide_eq_true. }
  split.
  - destruct ex'; [|done]. intros H. split; [by apply H2 | by apply Hiff].
  - intros Hk. specialize (H3 Hk). rewrite <- H3. cbn [snd].
    destruct ex'; [|by split; [|intros [? _]]].
    rewrite Hiff. by split; [|intros [_ ?]].
Qed.

Lemma trim_list_loop_pointwise rec ele elems : ∀ acc out,
  trim_list_loop C rec ele elems acc = Some out →
  ∃ new, out = acc ++ new ∧
    Forall2 (λ x y, y = x ∨ ∃ ref, rec ref x = Some (y, false, None)) elems new.
Proof.
  induction elems as [|x elems IH]; intros acc out H; cbn [trim_list_loop] in H.
  - injection H as <-. exists []. by rewrite app_nil_r.
  - destruct (getBranch C ele x) as [ref [e|]].
    + destruct (IH _ _ H) as [new [-> Hnew]]. exists (x :: new).
      rewrite <- app_assoc. split; [done|]. constructor; [by left | done].
    + destruct (rec ref x) as [[[re isEqual] err]|] eqn:E; [|discriminate].
      destruct err as [e|], isEqual; cbn in H;
        destruct (IH _ _ H) as [new [-> Hnew]];
        eexists (_ :: new); rewrite <- app_assoc; (split; [done|]);
        (constructor; [|done]); [by left | by left | by left | right; by exists ref].
Qed.

(** X13: trimming a list against a schema with an element type keeps the
    number of elements: when the list is not equal to its default, the
    result is a new list in which every element is either the input element
    or its trimmed form. *)
Theorem removeDefaultHelper_list_keeps_length (n : nat) (inputdef input out : value C)
    (elems : list (value C)) (err : option error) :
  Err C (CompileString C "" "helper") = None →
  IncompleteKind C inputdef = ListKind →
  Exists C (LookupPath C inputdef AnyIndex) = true →
  List C input = inl elems →
  removeDefaultHelper C (S n) inputdef input = Some (out, false, err) →
  ∃ iterlist, out = NewList C iterlist ∧ err = Err C out ∧
    length iterlist = length elems ∧
    Forall2 (λ x y, y = x ∨ ∃ ref, removeDefaultHelper C n ref x = Some (y, false, None))
            elems iterlist.
Proof.
  intros Hrv Hk Hele Hlist H. cbn [removeDefaultHelper] in H.
  rewrite Hrv, Hk, Hele, Hlist in H.
  destruct (isCueValueEqual C inputdef input); [discriminate|].
  destruct (decide _); [discriminate|].
  destruct (trim_list_loop C (removeDefaultHelper C n) _ elems []) as [iterlist|] eqn:E;
    [|discriminate].
  injection H as <- <-.
  destruct (trim_list_loop_pointwise _ _ _ _ _ E) as [new [-> Hnew]].
  exists new. split; [done|]. split; [done|].
  split; [symmetry; by eapply Forall2_length | done].
Qed.

Lemma apply_list_loop_bound rec ele elems : ∀ acc out,
  apply_list_loop C rec ele elems acc = Some (inl out) →
  ∃ new, out = acc ++ new ∧ (length new ≤ length elems)%nat ∧
    Forall (λ y, ∃ x ref, x ∈ elems ∧ rec x ref = Some (y, None)) new ∧
    ((∀ x ref, x ∈ elems → getBranch C ele x = (ref, None) →
               ∃ re, rec x ref = Some (re, None)) →
     length new = length elems).
Proof.
  induction elems as [|x elems IH]; intros acc out H; cbn [apply_list_loop] in H.
  - injection H as <-. exists []. by rewrite app_nil_r.
  - destruct (getBranch C ele x) as [ref [e|]] eqn:Eb; [discriminate|].
    destruct (rec x ref) as [[re err]|] eqn:E; [|discriminate].
    destruct err as [e|].
    + destruct (IH _ _ H) as [new (-> & Hlen & Hall & Heq)]. exists new.
      split; [done|]. split; [simpl; lia|]. split.
      * eapply Forall_impl; [exact Hall|]. intros y (x' & ref' & Hx' & Hy).
        exists x', ref'. split; [apply elem_of_cons; by right | done].
      * intros Hok. destruct (Hok x ref) as [re' Hre']; [apply elem_of_cons; by left | done |].
        congruence.
    + destruct (IH _ _ H) as [new (-> & Hlen & Hall & Heq)]. exists (re :: new).
      rewrite <- app_assoc. split; [done|]. split; [simpl; lia|]. split.
      * constructor.
        -- exists x, ref. split; [apply elem_of_cons; by left | done].
        -- eapply Forall_impl; [exact Hall|]. intros y (x' & ref' & Hx' & Hy).
           exists x', ref'. split; [apply elem_of_cons; by right | done].
      * intros Hok. simpl. f_equal. apply Heq. intros x' ref' Hx'.
        apply Hok. apply elem_of_cons; by right.
Qed.

(** X14: applying defaults to a list against a schema with an element type
    never adds elements: a successful result is a new list of results of
    the recursive calls, no longer than the input (elements whose
    recursive call fails are left out), and of the same length when every
    recursive call succeeds. *)
Theorem applyDefaultHelper_list_bound (n : nat) (input scue out : value C)
    (elems : list (value C)) :
  IncompleteKind C scue = ListKind →
  Exists C (LookupPath C scue AnyIndex) = true →
  List C input = inl elems →
  applyDefaultHelper C (S n) input scue = Some (out, None) →
  ∃ iterlist, out = NewList C iterlist ∧
    (length iterlist ≤ length elems)%nat ∧
    Forall (λ y, ∃ x ref, x ∈ elems ∧ applyDefaultHelper C n x ref = Some (y, None))
           iterlist ∧
    ((∀ x ref, x ∈ elems → getBranch C (LookupPath C scue AnyIndex) x = (ref, None) →
               ∃ re, applyDefaultHelper C n x ref = Some (re, None)) →
     length iterlist = length elems).
Proof.
  intros Hk Hele Hlist H. cbn [applyDefaultHelper] in H.
  rewrite Hk, Hele, Hlist in H.
  destruct (decide _); [discriminate|].
  destruct (apply_list_loop C (applyDefaultHelper C n) _ elems []) as [[iterlist|e]|] eqn:E;
    [|discriminate|discriminate].
  destruct (Err C (NewList C iterlist)); [discriminate|]. injection H as <-.
  destruct (apply_list_loop_bound _ _ _ _ _ E) as [new (-> & Hlen & Hall & Heq)].
  by exists new.
Qed.

(** X15: both entry points hand back the resource they were given whenever
    they return an error; on success they return a resource whose payload is
    a string and whose name is empty. *)
Theorem defaults_result_resource (fuel : nat) (r r' : Resource) (scue : value C)
    (err : option error) :
  ApplyDefaults C fuel r scue = Some (Ret (r', err)) ∨
  TrimDefaults C fuel r scue = Some (Ret (r', err)) →
  (err ≠ None → r' = r) ∧
  (err = None → ∃ re, r' = mkResource (AnyString re) "").
Proof.
  unfold ApplyDefaults, TrimDefaults. intros [H | H].
  - destruct (assert_string (Value r)) as [src|]; [|discriminate].
    destruct (Err C _); [by simplify_eq|].
    destruct (applyDefaultHelper C fuel _ scue) as [[rv [e|]]|]; [by simplify_eq| |discriminate].
    destruct (convertCUEValueToString C rv) as [re [e|]]; simplify_eq; [done|].
    split; [done | by eexists].
  - destruct (assert_string (Value r)) as [src|]; [|discriminate].
    destruct (Err C _); [by simplify_eq|].
    destruct (removeDefaultHelper C fuel scue _) as [[[rv eq] [e|]]|];
      [by simplify_eq| |discriminate].
    destruct (convertCUEValueToString C rv) as [re [e|]]; simplify_eq; [done|].
    split; [done | by eexists].
Qed.

(** X18: a schema value of struct kind is never reported equal to its
    default, and a report of equality never comes with an error. *)
Theorem removeDefaultHelper_equal_report (fuel : nat) (inputdef input out : value C)
    (err : option error) :
  removeDefaultHelper C fuel inputdef input = Some (out, true, err) →
  IncompleteKind C inputdef ≠ StructKind ∧ err = None.
Proof.
  destruct fuel as [|n]; [discriminate|]. cbn [removeDefaultHelper].
  destruct (Err C _); [discriminate|].
  destruct (IncompleteKind C inputdef) eqn:Ek;
    try (destruct (isCueValueEqual C inputdef input); by intros [= <- <-]).
  - destruct (Fields C inputdef true); [|discriminate].
    destruct (trim_struct_loop _ _ _ _ _) as [[rv ks]|]; [|discriminate].
    by destruct (Fields C input false).
  - destruct (isCueValueEqual C inputdef input); [by intros [= <- <-]|].
    destruct (Exists C _); [|discriminate].
    destruct (decide _); [by intros [= <- <-]|].
    destruct (List C input); [|by intros [= <- <-]].
    by destruct (trim_list_loop _ _ _ _ _).
Qed.

End MoreDefaults.

(** ** Labels outside the schema *)

Section OtherLabels.
Variable C : Cue.
Hypothesis laws : FillLaws C.

Lemma apply_struct_loop_other rec fields : ∀ cur out l,
  apply_struct_loop C rec fields cur = Some out →
  l ∉ (field_label C <$> fields) →
  LookupPath C out (Str l) = LookupPath C cur (Str l).
Proof.
  induction fields as [|f fields IH]; intros cur out l H Hl; cbn [apply_struct_loop] in H.
  - by injection H as <-.
  - rewrite fmap_cons in Hl. apply not_elem_of_cons in Hl as [Hne Hl].
    destruct (apply_field C rec cur f) as [cur'|] eqn:E; [|discriminate].
    rewrite (IH _ _ _ H Hl). by apply (apply_field_other C laws rec cur f).
Qed.

(** X22: in the struct case of [ApplyDefaults], a label that the schema
    does not have is left exactly as the input has it. *)
Theorem applyDefaultHelper_struct_other_labels (n : nat) (input scue out : value C)
    (fields : list (string * bool * value C)) (err : option error) (l : string) :
  IncompleteKind C scue = StructKind →
  Fields C scue true = inl fields →
  applyDefaultHelper C (S n) input scue = Some (out, err) →
  l ∉ (field_label C <$> fields) →
  LookupPath C out (Str l) = LookupPath C input (Str l).
Proof.
  intros Hk Hf H Hl. cbn [applyDefaultHelper] in H. rewrite Hk, Hf in H.
  destruct (apply_struct_loop C (applyDefaultHelper C n) fields input) as [out'|] eqn:E;
    [|discriminate].
  injection H as <- <-. by apply (apply_struct_loop_other _ _ _ _ _ E).
Qed.

Lemma trim_struct_loop_other rec input fields : ∀ st rv' ks' l,
  trim_struct_loop C rec input fields st = Some (rv', ks') →
  l ∉ (field_label C <$> fields) →
  LookupPath C rv' (Str l) = LookupPath C st.1 (Str l).
Proof.
  induction fields as [|f fields IH]; intros st rv' ks' l H Hl; cbn [trim_struct_loop] in H.
  - by injection H as ->.
  - rewrite fmap_cons in Hl. apply not_elem_of_cons in Hl as [Hne Hl].
    destruct (trim_field C rec input st f) as [st'|] eqn:E; [|discriminate].
    rewrite (IH _ _ _ _ H Hl). unfold trim_field in E. destruct st as [rv ks].
    destruct (Exists C _); [|by injection E as <-].
    destruct (rec _ _) as [[[re isEqual] err]|]; [|discriminate].
    destruct (_ && _); injection E as <-; [|done].
    cbn [fst]. by apply (fill_other C laws).
Qed.

Lemma keep_unknown_other ks ifields : ∀ rv l,
  l ∉ (field_label C <$> ifields) →
  LookupPath C (foldl (keep_unknown C ks) rv ifields) (Str l) = LookupPath C rv (Str l).
Proof.
  induction ifields as [|f ifields IH]; intros rv l Hl; [done|].
  rewrite fmap_cons in Hl. apply not_elem_of_cons in Hl as [Hne Hl].
  cbn [foldl]. rewrite IH by done. unfold keep_unknown.
  destruct (bool_decide _); [done|]. by apply (fill_other C laws).
Qed.

(** X23: in the struct case of [TrimDefaults] the output has no label
    beyond those of the schema fields and of the input fields. *)
Theorem removeDefaultHelper_struct_no_new_labels (n : nat)
    (inputdef input out : value C) (fields ifields : list (string * bool * value C))
    (isEqual : bool) (err : option error) (l : string) :
  IncompleteKind C inputdef = StructKind →
  Fields C inputdef true = inl fields →
  Fields C input false = inl ifields →
  removeDefaultHelper C (S n) inputdef input = Some (out, isEqual, err) →
  l ∉ (field_label C <$> fields) → l ∉ (field_label C <$> ifields) →
  Exists C (LookupPath C out (Str l)) = false.
Proof.
  intros Hk Hf Hif H Hl Hil. cbn [removeDefaultHelper] in H.
  rewrite (empty_ok C laws), Hk, Hf in H.
  destruct (trim_struct_loop _ _ _ _ _) as [[rv ks]|] eqn:E; [|discriminate].
  rewrite Hif in H. injection H as <- <- <-.
  rewrite keep_unknown_other by done.
  rewrite (trim_struct_loop_other _ _ _ _ _ _ _ E) by done.
  apply (empty_lookup C laws).
Qed.

End OtherLabels.

(** ** More worked examples on the CUE fragment *)
Module More_examples.
Import ToyCue Example_values More_values.

Lemma removeDefaultHelper_list_keeps_length_witness :
  ∃ iterlist, oneTwo = TList iterlist ∧ length iterlist = 2%nat.
Proof.
  destruct (removeDefaultHelper_list_keeps_length (cue (λ _, inputA)) 1
              intList oneTwo oneTwo [TInt 1; TInt 2] None)
    as [iterlist (Hout & _ & Hlen & _)]; try reflexivity.
  by exists iterlist.
Defined.

Lemma applyDefaultHelper_list_bound_witness :
  ∃ iterlist, one = TList iterlist ∧ (length iterlist ≤ 1)%nat.
Proof.
  destruct (applyDefaultHelper_list_bound (cue (λ _, inputA)) 1
              one defaultedList one [TInt 1])
    as [iterlist (Hout & Hlen & _)]; try reflexivity.
  by exists iterlist.
Defined.

Lemma defaults_result_resource_witness :
  ∃ re, mkResource
          (AnyString ("{" +:+ dq +:+ "a" +:+ dq +:+ ":" +:+ dq +:+ "hi" +:+ dq +:+ ","
                        +:+ dq +:+ "b" +:+ dq +:+ ":42}")) ""
        = mkResource (AnyString re) "".
Proof.
  apply (defaults_result_resource (cue (λ _, inputA)) 2 res _ schemaA None).
  - left. reflexivity.
  - reflexivity.
Defined.

Lemma removeDefaultHelper_equal_report_witness :
  IncompleteKind (cue (λ _, inputA)) intOr42 ≠ StructKind ∧ (None : option error) = None.
Proof.
  apply (removeDefaultHelper_equal_report (cue (λ _, inputA)) 1 intOr42 (TInt 42) (TInt 42)).
  reflexivity.
Defined.

Lemma applyDefaultHelper_struct_other_labels_witness :
  ∃ out, applyDefaultHelper (cue (λ _, inputZ)) 2 inputZ schemaA = Some (out, None) ∧
         LookupPath (cue (λ _, inputZ)) out (Str "z") = TInt 1.
Proof.
  eexists. split; [reflexivity|].
  eapply (applyDefaultHelper_struct_other_labels (cue (λ _, inputZ))
            (ToyFacts.toy_laws _) 1 inputZ schemaA _ _ None "z"); try reflexivity.
  intros Hin. simpl in Hin.
  repeat (apply elem_of_cons in Hin as [Hin | Hin]; [discriminate Hin|]).
  by apply elem_of_nil in Hin.
Defined.

Lemma removeDefaultHelper_struct_no_new_labels_witness :
  ∃ out, removeDefaultHelper (cue (λ _, inputB)) 2 schemaA inputB = Some (out, false, None) ∧
         Exists (cue (λ _, inputB)) (LookupPath (cue (λ _, inputB)) out (Str "q")) = false.
Proof.
  eexists. split; [reflexivity|].
  eapply (removeDefaultHelper_struct_no_new_labels (cue (λ _, inputB))
            (ToyFacts.toy_laws _) 1 schemaA inputB _ _ _ false None "q"); try reflexivity.
  - intros Hin. simpl in Hin.
    repeat (apply elem_of_cons in Hin as [Hin | Hin]; [discriminate Hin|]).
    by apply elem_of_nil in Hin.
  - intros Hin. simpl in Hin.
    repeat (apply elem_of_cons in Hin as [Hin | Hin]; [discriminate Hin|]).
    by apply elem_of_nil in Hin.
Defined.

End More_examples.

(** ** The order of the search, derived from the grouping in AsArray *)

Lemma chain_split s : ∀ l1 y l2,
  chain s = l1 ++ y :: l2 → chain (Successor y) = l2.
Proof.
  induction s as [|v f n IH]; intros l1 y l2 H; [by destruct l1|].
  cbn [chain] in H. destruct l1 as [|a l1].
  - simpl in H. assert (y = mkSchema v f n ∧ l2 = chain n) as [-> ->] by (split; congruence).
    done.
  - simpl in H. apply (IH l1). congruence.
Qed.

Lemma nth_successor_nil k : nth_successor k nilSchema = nilSchema.
Proof.
  unfold nth_successor. induction k as [|k IH]; [done|]. simpl. by rewrite IH.
Qed.

Lemma nth_successor_in_chain k : ∀ s,
  nth_successor k s ≠ nilSchema → nth_successor k s ∈ chain s.
Proof.
  induction k as [|k IH]; intros s H.
  - by apply chain_self.
  - assert (Hstep : nth_successor (S k) s = nth_successor k (Successor s)).
    { unfold nth_successor. apply Nat.iter_succ_r. }
    rewrite Hstep in H |- *. destruct s as [|v f n].
    + exfalso. apply H. apply nth_successor_nil.
    + cbn [Successor] in *. cbn [chain]. apply elem_of_cons; right. by apply IH.
Qed.

Lemma AsArray_step_order s done sch rest ret ret' :
  chain s = done ++ sch :: rest →
  AsArray_step ret sch = Ret ret' →
  (∀ o row x, ret !! o = Some row → x ∈ row → x ∈ done) →
  rows_in_chain_order ret →
  (∀ o row x, ret' !! o = Some row → x ∈ row → x ∈ done ++ [sch]) ∧
  rows_in_chain_order ret'.
Proof.
  intros Hc H Hdone Hord.
  apply AsArray_step_Ret in H as (Hmaj & row & Hrow & ->).
  set (maj := (Version sch).1) in *.
  set (base := if Z.of_nat (length ret) =? maj then ret ++ [[]] else ret) in *.
  assert (Hbase : (∀ o r x, base !! o = Some r → x ∈ r → x ∈ done) ∧
                  rows_in_chain_order base).
  { unfold base. destruct (_ =? _); [|done]. split.
    - intros o r x Ho Hx. apply lookup_app_Some in Ho as [Ho | [_ Ho]]; [by eapply Hdone|].
      apply list_lookup_singleton_Some in Ho as [_ <-]. by apply elem_of_nil in Hx.
    - intros o r Ho. apply lookup_app_Some in Ho as [Ho | [_ Ho]]; [by eapply Hord|].
      apply list_lookup_singleton_Some in Ho as [_ <-]. constructor. }
  destruct Hbase as [Hbd Hbo].
  assert (Hlt : (Z.to_nat maj < length base)%nat) by (by eapply lookup_lt_Some).
  split.
  - intros o r x Ho Hx. destruct (decide (o = Z.to_nat maj)) as [->|Hne].
    + rewrite list_lookup_insert_eq in Ho by done. injection Ho as <-.
      apply elem_of_app in Hx as [Hx | Hx]; apply elem_of_app; [left | by right].
      by eapply Hbd.
    + rewrite list_lookup_insert_ne in Ho by done.
      apply elem_of_app; left. by eapply Hbd.
  - intros o r Ho. destruct (decide (o = Z.to_nat maj)) as [->|Hne].
    + rewrite list_lookup_insert_eq in Ho by done. injection Ho as <-.
      apply StronglySorted_app_2; [|by eapply Hbo|repeat constructor].
      intros y x Hy ->%list_elem_of_singleton. unfold comes_after.
      assert (Hyd : y ∈ done) by (by eapply Hbd).
      apply list_elem_of_split in Hyd as (d1 & d2 & ->).
      rewrite <- app_assoc in Hc. cbn [app] in Hc.
      rewrite (chain_split s _ _ _ Hc).
      apply elem_of_app; right. apply elem_of_cons; by left.
    + rewrite list_lookup_insert_ne in Ho by done. by eapply Hbo.
Qed.

Lemma AsArray_loop_order s flat : ∀ done ret arr,
  chain s = done ++ flat →
  AsArray_loop ret flat = Ret arr →
  (∀ o row x, ret !! o = Some row → x ∈ row → x ∈ done) →
  rows_in_chain_order ret →
  rows_in_chain_order arr.
Proof.
  induction flat as [|sch flat IH]; intros done ret arr Hc H Hdone Hord;
    cbn [AsArray_loop] in H.
  - by injection H as <-.
  - destruct (AsArray_step ret sch) as [ret'|] eqn:E; [|discriminate].
    cbn [mbind outcome_bind] in H.
    destruct (AsArray_step_order s done sch flat ret ret' Hc E Hdone Hord) as [Hd' Ho'].
    apply (IH (done ++ [sch]) ret' arr); [by rewrite <- app_assoc | done | done | done].
Qed.

Lemma elem_of_concat_lookup {A} (ls : list (list A)) (x : A) :
  x ∈ concat ls → ∃ o r, ls !! o = Some r ∧ x ∈ r.
Proof.
  induction ls as [|l ls IH]; cbn [concat]; intros Hx; [by apply elem_of_nil in Hx|].
  apply elem_of_app in Hx as [Hx | Hx]; [by exists O, l|].
  destruct (IH Hx) as (o & r & Ho & Hr). by exists (S o), r.
Qed.

(** Newest major first, and inside a major the schema farther down the
    chain first. *)
Lemma visit_order_sorted (arr : list (list Schema)) :
  rows_by_major arr → rows_in_chain_order arr →
  StronglySorted tried_before (reverse (concat arr)).
Proof.
  induction arr as [|row arr IH] using rev_ind; intros Hmaj Hord; [constructor|].
  rewrite concat_app, reverse_app. cbn [concat]. rewrite app_nil_r.
  apply StronglySorted_app_2.
  - intros x y Hx Hy. left.
    rewrite elem_of_reverse in Hx. rewrite elem_of_reverse in Hy.
    rewrite (Hmaj (length arr) row x); [|apply lookup_snoc|done].
    apply elem_of_concat_lookup in Hy as (o & r & Ho & Hy).
    rewrite (Hmaj o r y); [|by apply lookup_app_l_Some|done].
    apply lookup_lt_Some in Ho. lia.
  - assert (Hrow : StronglySorted comes_after row) by (apply (Hord (length arr)), lookup_snoc).
    assert (Hsame : ∀ x, x ∈ row → (Version x).1 = Z.of_nat (length arr)).
    { intros x Hx. apply (Hmaj (length arr) row x); [apply lookup_snoc | done]. }
    clear - Hrow Hsame. induction Hrow as [|y row Hs IHs Hy]; [constructor|].
    rewrite reverse_cons. apply StronglySorted_app_2.
    + intros x z Hx ->%list_elem_of_singleton. right.
      rewrite elem_of_reverse in Hx. split.
      * rewrite !Hsame; [done | apply elem_of_cons; by left | apply elem_of_cons; by right].
      * by apply (proj1 (list.Forall_forall _ _) Hy x).
    + apply IHs. intros x Hx. apply Hsame. apply elem_of_cons; by right.
    + repeat constructor.
  - apply IH.
    + intros o r x Ho Hx. apply (Hmaj o r x); [by apply lookup_app_l_Some | done].
    + intros o r Ho. apply (Hord o r). by apply lookup_app_l_Some.
Qed.

(** C3 (as stated) fails: a start schema of major 1 that accepts the
    instance is not returned, the call panics; and on the chain 0.1, 0.0,
    where both schemas accept, schema 0.0 is tried first and returned
    although 0.1 is newer. *)
Lemma SearchAndValidate_not_newest_first :
  (accepts (AnyString "baz") Example_lineage.s10 ∧
   ¬ ∃ log r e, SearchAndValidate Example_lineage.s10 (AnyString "baz") = Ret (log, r, e)) ∧
  (accepts (AnyString "baz") Example_chains.back01 ∧
   Example_chains.back01 ∈ chain Example_chains.back01 ∧
   version_lt (Version Example_chains.back00) (Version Example_chains.back01) ∧
   SearchAndValidate Example_chains.back01 (AnyString "baz")
     = Ret ([Example_chains.back00], Example_chains.back00, None)).
Proof.
  split; [split|].
  - reflexivity.
  - intros (log & r & e & H). discriminate H.
  - split; [reflexivity|]. split; [apply elem_of_cons; by left|].
    split; [right; simpl; lia | reflexivity].
Qed.

(** C3 (amended): whenever the majors of the chain let [AsArray] return,
    [SearchAndValidate] tries the reachable schemas, each at most once, in
    the order: larger major first and, inside a major, the schema farther
    down the chain first; it stops at the first schema that accepts the
    instance and returns it, and returns nil after trying all of them when
    none accepts.  On a chain whose successors keep the major with a larger
    minor or open the next major this order is newest to oldest, and the
    newest accepting schema is returned. *)
Theorem SearchAndValidate_visit_order (s : Schema) (v : any) :
  majors_fit 0 (chain s) = true →
  ∃ order log r e,
    SearchAndValidate s v = Ret (log, r, e) ∧
    order ≡ₚ chain s ∧
    (∀ k, nth_successor k s ≠ nilSchema → nth_successor k s ∈ order) ∧
    StronglySorted tried_before order ∧
    (∃ unvisited, order = log ++ unvisited) ∧
    ((∃ x, x ∈ order ∧ accepts v x) →
       accepts v r ∧ e = None ∧
       ∃ rejected, log = rejected ++ [r] ∧ Forall (λ x, ¬ accepts v x) rejected) ∧
    ((∀ x, x ∈ order → ¬ accepts v x) → r = nilSchema ∧ log = order) ∧
    (steps_ok (chain s) = true →
       order = reverse (chain s) ∧ StronglySorted newer order ∧
       ∀ x, x ∈ chain s → accepts v x → version_le (Version x) (Version r)).
Proof.
  intros Hfit.
  destruct (proj2 (AsArray_loop_fits (chain s) []) Hfit) as [arr Harr].
  fold (AsArray s) in Harr.
  destruct (AsArray_loop_inv (chain s) [] arr Harr) as [Hmaj Hperm].
  { intros o row x Ho. by rewrite lookup_nil in Ho. }
  cbn [concat app] in Hperm.
  assert (Hord : rows_in_chain_order arr).
  { apply (AsArray_loop_order s (chain s) [] [] arr); [done | exact Harr | |].
    - intros o row x Ho. by rewrite lookup_nil in Ho.
    - intros o row Ho. by rewrite lookup_nil in Ho. }
  set (order := reverse (concat arr)).
  assert (Hin : ∀ x, x ∈ order ↔ x ∈ chain s).
  { intros x. unfold order. by rewrite elem_of_reverse, Hperm. }
  assert (Hres : ∃ log r e, SearchAndValidate s v = Ret (log, r, e) ∧
    (∃ unvisited, order = log ++ unvisited) ∧
    ((∃ x, x ∈ order ∧ accepts v x) →
       accepts v r ∧ e = None ∧
       (∃ rejected, log = rejected ++ [r] ∧ Forall (λ x, ¬ accepts v x) rejected) ∧
       ∃ older, order = log ++ older) ∧
    ((∀ x, x ∈ order → ¬ accepts v x) → r = nilSchema ∧ log = order)).
  { unfold SearchAndValidate. rewrite Harr. cbn [mbind outcome_bind mret outcome_ret].
    rewrite search_major_flat, reverse_concat. fold order.
    destruct (split_first_accept v order) as [Hall | (rej & r & older & Hsplit & Hrej & Hr)].
    - destruct (search_minor_all_reject v _ None [] Hall) as [e [-> _]].
      exists order, nilSchema, e. cbn [app]. split; [done|].
      split; [exists []; by rewrite app_nil_r|]. split; [|done].
      intros [x [Hx Hacc]]. exfalso.
      by apply (proj1 (list.Forall_forall _ _) Hall x).
    - rewrite Hsplit. rewrite search_minor_first_accept by done.
      exists (rej ++ [r]), r, None. cbn [app]. split; [done|].
      split; [exists older; by rewrite <- app_assoc|]. split.
      + intros _. split; [done|]. split; [done|]. split; [by exists rej|].
        exists older. by rewrite <- app_assoc.
      + intros Hnone. exfalso. apply (Hnone r); [|done].
        apply elem_of_app; right. apply elem_of_cons; by left. }
  destruct Hres as (log & r & e & Hrun & Hpre & Hfound & Hnone).
  exists order, log, r, e. split; [exact Hrun|].
  split; [unfold order; by rewrite reverse_Permutation|].
  split; [intros k Hk; apply Hin; by apply nth_successor_in_chain|].
  split; [by apply visit_order_sorted|]. split; [exact Hpre|].
  split; [intros Hx; destruct (Hfound Hx) as (? & ? & ? & _); done|].
  split; [exact Hnone|].
  intros Hsteps.
  assert (Hok : lineage_ok s = true).
  { unfold lineage_ok. rewrite Hsteps, andb_true_r. destruct s as [|ver f n]; [done|].
    cbn [chain majors_fit] in Hfit. cbn [Version] in Hfit |- *.
    change (Z.of_nat 0) with 0 in Hfit.
    destruct (ver.1 =? 0) eqn:E; [done|]. exfalso.
    apply andb_prop in Hfit as [[H1%Z.leb_le H2%Z.ltb_lt]%andb_prop _]. lia. }
  destruct (AsArray_ok s Hok) as [arr' [Harr' Hcat]].
  assert (arr' = arr) as -> by congruence.
  assert (Horder : order = reverse (chain s)) by (unfold order; by rewrite Hcat).
  split; [exact Horder|]. split; [rewrite Horder; by apply chain_newest_first|].
  intros x Hx Hacc.
  destruct Hfound as (Hr & _ & [rej [Hlog Hrej]] & [older Hold]).
  { exists x. split; [by apply Hin | done]. }
  pose proof (chain_newest_first s Hok) as Hsorted. rewrite <- Horder in Hsorted.
  rewrite Hold, Hlog, <- app_assoc in Hsorted. cbn [app] in Hsorted.
  apply Hin in Hx. rewrite Hold, Hlog, <- app_assoc in Hx. cbn [app] in Hx.
  apply elem_of_app in Hx as [Hx | Hx].
  { exfalso. by apply (proj1 (list.Forall_forall _ _) Hrej x). }
  apply elem_of_cons in Hx as [-> | Hx]; [by left | right].
  apply StronglySorted_app_1_r in Hsorted.
  apply StronglySorted_inv in Hsorted as [_ Hnew].
  by apply (proj1 (list.Forall_forall _ _) Hnew x).
Qed.

(** The chain 0.0, 1.0, 0.1: schema 1.0 is tried first, then 0.1, which
    accepts and is returned; 0.0 is not tried. *)
Lemma SearchAndValidate_visit_order_witness :
  ∃ order log r e,
    SearchAndValidate Example_chains.mixed00 (AnyString "baz") = Ret (log, r, e) ∧
    order ≡ₚ chain Example_chains.mixed00 ∧
    StronglySorted tried_before order ∧
    log = [Example_chains.mixed10; Example_chains.mixed01] ∧
    r = Example_chains.mixed01.
Proof.
  destruct (SearchAndValidate_visit_order Example_chains.mixed00 (AnyString "baz") eq_refl)
    as (order & log & r & e & Hrun & Hperm & _ & Hsorted & _).
  exists order, log, r, e. split; [exact Hrun|]. split; [exact Hperm|].
  split; [exact Hsorted|].
  vm_compute in Hrun. by injection Hrun as <- <- <-.
Defined.
